(** * Dubins-path route planner of gdsfactory/routing/route_dubin.py

    A shallow embedding of the planner and a proof of the properties its
    specification states about it.

    Number model.  The source computes with Python floats.  They are modelled
    here as the real numbers of the Standard Library: [m.sin], [m.cos],
    [m.sqrt], [m.acos], [m.floor] and [abs] are [sin], [cos], [sqrt], [acos],
    [Int_part] and [Rabs]; [m.atan2] is defined below from [atan].  Rounding,
    signed zeros, NaN and the infinities are outside the model; the one
    infinity the source writes, the initial [bcost = float("inf")], is the
    constructor [Inf] of [ecost].  Python's [/] on a zero divisor raises
    [ZeroDivisionError]; that is kept wherever the divisor is an input.
    [x ** 2.0] is [x ^ 2].

    The module [Float64] has the same lines once more on binary64 floats, the
    functions of the C library being a parameter.  It is where a statement
    that holds of the formulas is compared with what rounding makes of it.

    Other conventions.  A planner code is a string of ASCII characters.  The
    radius of the cross-section and the orientation of a port are numbers
    (the layout library also allows [None] for both), so [float(...)] around
    an orientation is the identity.  The [print] calls are left out. *)

From Stdlib Require Import Floats.
From Stdlib Require Import Reals Lra Lia List String Ascii Bool ZArith.
Import ListNotations.

Open Scope R_scope.

(** ** Exceptions and the result monad *)

(** The Python exceptions the modelled lines can raise, followed by the three
    error kinds the specification names (its section 7).  No line of the
    source constructs one of the last three. *)
Inductive exn : Set :=
| ZeroDivisionError
| TypeError
| UnboundLocalError
| ValueError
| IndexError
| OverflowError
| InvalidRadiusError
| InvalidConfigurationError
| PlanningError.

Inductive result (A : Type) : Type :=
| Ok (a : A)
| Raise (e : exn).

Arguments Ok {A} a.
Arguments Raise {A} e.

Definition bind {A B : Type} (m : result A) (k : A -> result B) : result B :=
  match m with
  | Ok a => k a
  | Raise e => Raise e
  end.

Notation "x <- m ;; k" := (bind m (fun x => k))
  (at level 61, m at next level, right associativity).

(** ** Library functions the source calls *)

(** [m.radians]. *)
Definition radians (deg : R) : R := deg * (PI / 180).

(** [m.floor], as a real. *)
Definition floor (x : R) : R := IZR (Int_part x).

(** [m.atan2 y x] on the reals: the angle of the point (x, y) in (-pi, pi],
    and 0 at the origin. *)
Definition atan2 (y x : R) : R :=
  if Rlt_dec 0 x then atan (y / x)
  else if Rlt_dec x 0 then
         if Rle_dec 0 y then atan (y / x) + PI else atan (y / x) - PI
  else if Rlt_dec 0 y then PI / 2
  else if Rlt_dec y 0 then - (PI / 2)
  else 0.

(** Python's [a / b] where [b] may be zero. *)
Definition pydiv (a b : R) : result R :=
  if Req_dec_T b 0 then Raise ZeroDivisionError else Ok (a / b).

(** Python's float [a % b] for a positive divisor. *)
Definition pymod (a b : R) : R := a - b * floor (a / b).

(** [str.upper] and [str.islower] on ASCII characters. *)
Definition islower (c : ascii) : bool :=
  let n := nat_of_ascii c in ((97 <=? n)%nat && (n <=? 122)%nat)%bool.

Definition upper_ascii (c : ascii) : ascii :=
  if islower c then ascii_of_nat (nat_of_ascii c - 32) else c.

Fixpoint upper (s : string) : string :=
  match s with
  | EmptyString => EmptyString
  | String c r => String (upper_ascii c) (upper r)
  end.

(** [l[i] = v] on a list that has index [i]. *)
Fixpoint set_nth (i : nat) (v : R) (l : list R) : list R :=
  match l, i with
  | [], _ => []
  | _ :: r, O => v :: r
  | x :: r, S j => x :: set_nth j v r
  end.

(** [sum(l)]: the built-in starts from 0 and adds from the left. *)
Definition pysum (l : list R) : R := fold_left Rplus l 0.

(** [zip] of three lists, as long as the shortest. *)
Fixpoint zip3 {A B C : Type} (la : list A) (lb : list B) (lc : list C)
  : list (A * B * C) :=
  match la, lb, lc with
  | a :: ra, b :: rb, c :: rc => (a, b, c) :: zip3 ra rb rc
  | _, _, _ => []
  end.

(** ** Helpers of the source *)

(** [mod_to_pi]: angle - 2.0 * pi * floor(angle / 2.0 / pi). *)
Definition mod_to_pi (angle : R) : R :=
  angle - 2 * PI * floor (angle / 2 / PI).

(** ** The family solver *)

(** What [general_planner] returns when the family is feasible:
    ([path], [mode], [cost]). *)
Definition solution : Type := (list R * list ascii * R)%type.

(** The loop [for i in [0, 2]] at the end of [general_planner]: a lower-case
    letter at position [i] of [planner] replaces [path[i]] by
    [2 * pi - path[i]]. *)
Definition reflect_at (planner : string) (path : list R) (i : nat)
  : result (list R) :=
  match String.get i planner with
  | None => Raise IndexError
  | Some ch =>
      if islower ch then Ok (set_nth i (2 * PI - nth i path 0) path)
      else Ok path
  end.

Definition reflect (planner : string) (path : list R) : result (list R) :=
  path0 <- reflect_at planner path 0 ;;
  reflect_at planner path0 2.

(** The solver is written once for an arbitrary post-processing [post] of
    [path] (lines 108-110), so that the source, where [post] is [reflect], can
    be compared with the variant that has no such step. *)
Section Solver.

Variable post : string -> list R -> result (list R).

(** Lines 106-114: the tail every feasible branch reaches. *)
Definition finish_with (planner : string) (t p q : R)
  : result (option solution) :=
  path <- post planner [t; p; q] ;;
  Ok (Some (path, list_ascii_of_string planner, pysum (map Rabs path))).

Definition general_planner_with (planner : string) (alpha beta d : R)
  : result (option solution) :=
  let sa := sin alpha in
  let sb := sin beta in
  let ca := cos alpha in
  let cb := cos beta in
  let c_ab := cos (alpha - beta) in
  let planner_uc := upper planner in
  if (planner_uc =? "LSL")%string then
    let tmp0 := d + sa - sb in
    let p_squared := 2 + (d * d) - (2 * c_ab) + (2 * d * (sa - sb)) in
    if Rlt_dec p_squared 0 then Ok None
    else
      let tmp1 := atan2 (cb - ca) tmp0 in
      let t := mod_to_pi (- alpha + tmp1) in
      let p := sqrt p_squared in
      let q := mod_to_pi (beta - tmp1) in
      finish_with planner t p q
  else if (planner_uc =? "RSR")%string then
    let tmp0 := d - sa + sb in
    let p_squared := 2 + (d * d) - (2 * c_ab) + (2 * d * (sb - sa)) in
    if Rlt_dec p_squared 0 then Ok None
    else
      let tmp1 := atan2 (ca - cb) tmp0 in
      let t := mod_to_pi (alpha - tmp1) in
      let p := sqrt p_squared in
      let q := mod_to_pi (- beta + tmp1) in
      finish_with planner t p q
  else if (planner_uc =? "LSR")%string then
    let p_squared := -2 + (d * d) + (2 * c_ab) + (2 * d * (sa + sb)) in
    if Rlt_dec p_squared 0 then Ok None
    else
      let p := sqrt p_squared in
      let tmp2 := atan2 (- ca - cb) (d + sa + sb) - atan2 (-2) p in
      let t := mod_to_pi (- alpha + tmp2) in
      let q := mod_to_pi (- mod_to_pi beta + tmp2) in
      finish_with planner t p q
  else if (planner_uc =? "RSL")%string then
    let p_squared := (d * d) - 2 + (2 * c_ab) - (2 * d * (sa + sb)) in
    if Rlt_dec p_squared 0 then Ok None
    else
      let p := sqrt p_squared in
      let tmp2 := atan2 (ca + cb) (d - sa - sb) - atan2 2 p in
      let t := mod_to_pi (alpha - tmp2) in
      let q := mod_to_pi (beta - tmp2) in
      finish_with planner t p q
  else if (planner_uc =? "RLR")%string then
    let tmp_rlr := (6 - d * d + 2 * c_ab + 2 * d * (sa - sb)) / 8 in
    if Rlt_dec 1 (Rabs tmp_rlr) then Ok None
    else
      let p := mod_to_pi (2 * PI - acos tmp_rlr) in
      let t := mod_to_pi (alpha - atan2 (ca - cb) (d - sa + sb)
                          + mod_to_pi (p / 2)) in
      let q := mod_to_pi (alpha - beta - t + mod_to_pi p) in
      finish_with planner t p q
  else if (planner_uc =? "LRL")%string then
    let tmp_lrl := (6 - d * d + 2 * c_ab + 2 * d * (- sa + sb)) / 8 in
    if Rlt_dec 1 (Rabs tmp_lrl) then Ok None
    else
      let p := mod_to_pi (2 * PI - acos tmp_lrl) in
      let t := mod_to_pi (- alpha - atan2 (ca - cb) (d + sa - sb) + p / 2) in
      let q := mod_to_pi (mod_to_pi beta - alpha - t + mod_to_pi p) in
      finish_with planner t p q
  else
    (* "bad planner" is printed and [path = [t, p, q]] reads unbound names *)
    Raise UnboundLocalError.

End Solver.

(** [general_planner] of the source. *)
Definition general_planner : string -> R -> R -> R -> result (option solution) :=
  general_planner_with reflect.

(** [general_planner] without lines 108-110. *)
Definition general_planner_unreflected
  : string -> R -> R -> R -> result (option solution) :=
  general_planner_with (fun _ path => Ok path).

(** ** The planner: normalization, selection, materialization *)

(** Modelled from the spec: the class of the cross-section is not among the
    sources.  Section 3 has the turning radius as a single scalar shared by
    all arcs; it is the one field the planner reads, [xs.radius]. *)
Record CrossSection : Type := { radius : R }.

(** A configuration (x, y, heading in degrees). *)
Definition config : Type := (R * R * R)%type.

(** One element of the returned list: (letter, length, radius). *)
Definition segment : Type := (ascii * R * R)%type.

(** [bcost]: [float("inf")] until a family has been taken. *)
Inductive ecost : Type :=
| Inf
| Fin (r : R).

(** [bcost > cost]. *)
Definition ecost_gt (b : ecost) (cost : R) : bool :=
  match b with
  | Inf => true
  | Fin r => if Rlt_dec cost r then true else false
  end.

(** The five variables the selection loop updates. *)
Record best : Type := {
  bt : option R;
  bp : option R;
  bq : option R;
  bmode : option (list ascii);
  bcost : ecost
}.

Definition best_init : best :=
  {| bt := None; bp := None; bq := None; bmode := None; bcost := Inf |}.

Definition planners : list string :=
  ["LSL"; "RSR"; "LSR"; "RSL"; "RLR"; "LRL"]%string.

(** Lines 139-167 of [dubins_path]: the local problem (alpha, beta, d). *)
Definition dubins_normalize (xs : CrossSection) (start end_ : config)
  : result (R * R * R) :=
  let '(sx, sy, syaw) := start in
  let '(ex, ey, eyaw) := end_ in
  let syaw := radians syaw in
  let eyaw := radians eyaw in
  let c := radius xs in
  let ex := ex - sx in
  let ey := ey - sy in
  let lex := cos syaw * ex + sin syaw * ey in
  let ley := - sin syaw * ex + cos syaw * ey in
  let leyaw := eyaw - syaw in
  let D := sqrt (lex ^ 2 + ley ^ 2) in
  d <- pydiv D c ;;
  let theta := mod_to_pi (atan2 ley lex) in
  let alpha := mod_to_pi (- theta) in
  let beta := mod_to_pi (leyaw - theta) in
  Ok (alpha, beta, d).

(** Lines 176-182: the body of the loop once [solution] is known. *)
Definition consider (b : best) (sol : option solution) : result best :=
  match sol with
  | None => Ok b
  | Some (path, mode, cost) =>
      match path with
      | [t; p; q] =>
          if ecost_gt (bcost b) cost then
            Ok {| bt := Some t; bp := Some p; bq := Some q;
                  bmode := Some mode; bcost := Fin cost |}
          else Ok b
      | _ => Raise ValueError
      end
  end.

(** The loop and what follows it are written for an arbitrary family solver
    [gp]; the source's is [general_planner]. *)
Section Selector.

Variable gp : string -> R -> R -> R -> result (option solution).

(** Lines 174-182: [for planner in planners]. *)
Fixpoint select_loop (pls : list string) (alpha beta d : R) (b : best)
  : result best :=
  match pls with
  | [] => Ok b
  | planner :: rest =>
      sol <- gp planner alpha beta d ;;
      b' <- consider b sol ;;
      select_loop rest alpha beta d b'
  end.

(** [x * c] where [x] may be [None]. *)
Definition pymul (x : option R) (c : R) : result R :=
  match x with
  | Some v => Ok (v * c)
  | None => Raise TypeError
  end.

(** Line 186: [list(zip(bmode, [bt * c, bp * c, bq * c], [c] * 3))]. *)
Definition emit (b : best) (c : R) : result (list segment) :=
  lt <- pymul (bt b) c ;;
  lp <- pymul (bp b) c ;;
  lq <- pymul (bq b) c ;;
  match bmode b with
  | None => Raise TypeError
  | Some mode => Ok (zip3 mode [lt; lp; lq] [c; c; c])
  end.

(** Lines 139-182: everything before the return. *)
Definition dubins_plan_with (xs : CrossSection) (start end_ : config)
  : result best :=
  n <- dubins_normalize xs start end_ ;;
  let '(alpha, beta, d) := n in
  select_loop planners alpha beta d best_init.

Definition dubins_path_with (xs : CrossSection) (start end_ : config)
  : result (list segment) :=
  b <- dubins_plan_with xs start end_ ;;
  emit b (radius xs).

End Selector.

(** [dubins_path] of the source, and its part before the return. *)
Definition dubins_plan : CrossSection -> config -> config -> result best :=
  dubins_plan_with general_planner.

Definition dubins_path
  : CrossSection -> config -> config -> result (list segment) :=
  dubins_path_with general_planner.

(** [dubins_path] over the solver without lines 108-110. *)
Definition dubins_path_unreflected
  : CrossSection -> config -> config -> result (list segment) :=
  dubins_path_with general_planner_unreflected.

(** ** Rendering and the entry point *)

(** The class of a port is not among the sources either; these are the
    fields [route_dubin] and tests/test_port.py read: a name, a center (x, y)
    and an orientation in degrees. *)
Record Port : Type := {
  name : string;
  center : R * R;
  orientation : R
}.

(** What [gds_solution] adds to the component, in order: a circular bend of
    a signed angle in degrees, or a straight of a length.  The placement of
    each piece at the previous one's [o2] port and the random component name
    belong to the layout library and are not modelled. *)
Inductive shape : Type :=
| BendCircular (angle : R)
| Straight (length : R).

Definition gds_step (seg : segment) : result shape :=
  let '(mode, length, radius) := seg in
  if (mode =? "L")%char then
    arc_angle <- pydiv (180 * length) (PI * radius) ;;
    Ok (BendCircular arc_angle)
  else if (mode =? "R")%char then
    arc_angle <- pydiv (180 * length) (PI * radius) ;;
    Ok (BendCircular (- arc_angle))
  else if (mode =? "S")%char then
    Ok (Straight length)
  else Raise ValueError.

Fixpoint gds_solution (xs : CrossSection) (port1 port2 : Port)
  (solution : list segment) : result (list shape) :=
  match solution with
  | [] => Ok []
  | seg :: rest =>
      s <- gds_step seg ;;
      r <- gds_solution xs port1 port2 rest ;;
      Ok (s :: r)
  end.

Definition route_dubin (xs : CrossSection) (port1 port2 : Port)
  : result (list shape) :=
  let '(x1, y1) := center port1 in
  let angle1 := orientation port1 in
  let START := (x1 / 1000, y1 / 1000, angle1) in
  let '(x2, y2) := center port2 in
  let angle2 := orientation port2 in
  let angle2 := pymod (angle2 + 180) 360 in
  let END := (x2 / 1000, y2 / 1000, angle2) in
  path <- dubins_path xs START END ;;
  gds_solution xs port1 port2 path.

(** ** The family table of the specification

    The six evaluators as section 4.2 of the specification words them,
    written independently of [general_planner] to be compared with it. *)

Inductive family : Set := LSL | RSR | LSR | RSL | RLR | LRL.

Definition family_code (f : family) : string :=
  match f with
  | LSL => "LSL" | RSR => "RSR" | LSR => "LSR"
  | RSL => "RSL" | RLR => "RLR" | LRL => "LRL"
  end%string.

(** canonical_angle(a) = a - 2 pi floor(a / 2 pi). *)
Definition canon (a : R) : R := a - 2 * PI * floor (a / (2 * PI)).

(** The quantity each feasibility test is about: p squared for the four
    families with a straight, the argument of the arc cosine for the two
    without. *)
Definition spec_test_value (f : family) (alpha beta d : R) : R :=
  let sa := sin alpha in
  let sb := sin beta in
  let ca := cos alpha in
  let cb := cos beta in
  let c_ab := cos (alpha - beta) in
  match f with
  | LSL => 2 + d ^ 2 - 2 * c_ab + 2 * d * (sa - sb)
  | RSR => 2 + d ^ 2 - 2 * c_ab + 2 * d * (sb - sa)
  | LSR => -2 + d ^ 2 + 2 * c_ab + 2 * d * (sa + sb)
  | RSL => d ^ 2 - 2 + 2 * c_ab - 2 * d * (sa + sb)
  | RLR => (6 - d ^ 2 + 2 * c_ab + 2 * d * (sa - sb)) / 8
  | LRL => (6 - d ^ 2 + 2 * c_ab + 2 * d * (sb - sa)) / 8
  end.

(** The feasibility test of the table. *)
Definition spec_feasible (f : family) (alpha beta d : R) : Prop :=
  match f with
  | LSL | RSR | LSR | RSL => 0 <= spec_test_value f alpha beta d
  | RLR | LRL => Rabs (spec_test_value f alpha beta d) <= 1
  end.

(** The column "t, p, q" of the table. *)
Definition spec_measures (f : family) (alpha beta d : R) : R * R * R :=
  let sa := sin alpha in
  let sb := sin beta in
  let ca := cos alpha in
  let cb := cos beta in
  let v := spec_test_value f alpha beta d in
  match f with
  | LSL =>
      let p := sqrt v in
      let tmp := atan2 (cb - ca) (d + sa - sb) in
      (canon (- alpha + tmp), p, canon (beta - tmp))
  | RSR =>
      let p := sqrt v in
      let tmp := atan2 (ca - cb) (d - sa + sb) in
      (canon (alpha - tmp), p, canon (- beta + tmp))
  | LSR =>
      let p := sqrt v in
      let tmp := atan2 (- ca - cb) (d + sa + sb) - atan2 (-2) p in
      (canon (- alpha + tmp), p, canon (- canon beta + tmp))
  | RSL =>
      let p := sqrt v in
      let tmp := atan2 (ca + cb) (d - sa - sb) - atan2 2 p in
      (canon (alpha - tmp), p, canon (beta - tmp))
  | RLR =>
      let p := canon (2 * PI - acos v) in
      let t := canon (alpha - atan2 (ca - cb) (d - sa + sb) + canon (p / 2)) in
      (t, p, canon (alpha - beta - t + canon p))
  | LRL =>
      let p := canon (2 * PI - acos v) in
      let t := canon (- alpha - atan2 (ca - cb) (d + sa - sb) + p / 2) in
      (t, p, canon (canon beta - alpha - t + canon p))
  end.

(** The evaluator of a family: its measures, or [None] for "infeasible". *)
Definition spec_evaluate (f : family) (alpha beta d : R) : option (R * R * R) :=
  match f with
  | LSL | RSR | LSR | RSL =>
      if Rle_dec 0 (spec_test_value f alpha beta d)
      then Some (spec_measures f alpha beta d) else None
  | RLR | LRL =>
      if Rle_dec (Rabs (spec_test_value f alpha beta d)) 1
      then Some (spec_measures f alpha beta d) else None
  end.

(** The measures as [general_planner] packs them: the path, the letters of
    the family and the cost. *)
Definition as_solution (f : family) (m : R * R * R) : solution :=
  let '(t, p, q) := m in
  ([t; p; q], list_ascii_of_string (family_code f), Rabs t + Rabs p + Rabs q).

(** ** What the selection loop maintains *)

(** The state after a family has been taken. *)
Definition taken (t p q : R) (mode : list ascii) (cost : R) : best :=
  {| bt := Some t; bp := Some p; bq := Some q;
     bmode := Some mode; bcost := Fin cost |}.

(** A solution whose path unpacks into (t, p, q). *)
Definition three_measures (sol : option solution) : Prop :=
  match sol with
  | None => True
  | Some (path, _, _) => List.length path = 3%nat
  end.

(** [first_minimum seen b]: [b] is the state of the loop after the solutions
    [seen], in order.  Either none was feasible and [b] is still the initial
    state, or [b] holds the feasible solution of least cost, the first one
    among those of equal cost. *)
Inductive first_minimum (seen : list (option solution)) : best -> Prop :=
| fm_none :
    Forall (fun sol => sol = None) seen ->
    first_minimum seen best_init
| fm_taken (i : nat) (t p q : R) (mode : list ascii) (cost : R) :
    nth_error seen i = Some (Some ([t; p; q], mode, cost)) ->
    (forall j path' mode' cost',
        nth_error seen j = Some (Some (path', mode', cost')) ->
        cost <= cost' /\ ((j < i)%nat -> cost < cost')) ->
    first_minimum seen (taken t p q mode cost).

(** The family solver [gp] answers [sol], a solution of three measures, for
    [planner]. *)
Definition answers (gp : string -> R -> R -> R -> result (option solution))
  (alpha beta d : R) (planner : string) (sol : option solution) : Prop :=
  gp planner alpha beta d = Ok sol /\ three_measures sol.

(** ** Segment kinds

    The three kinds of section 4.4 of the specification, the letter that
    stands for each, and the piece [gds_solution] is expected to add for a
    segment of that kind: a bend of the arc's angle in degrees, counted
    positive to the left and negative to the right, or a straight. *)

Inductive kind : Set := LeftArc | StraightLine | RightArc.

Definition segment_kind (letter : ascii) : option kind :=
  if (letter =? "L")%char then Some LeftArc
  else if (letter =? "S")%char then Some StraightLine
  else if (letter =? "R")%char then Some RightArc
  else None.

Definition render (k : kind) (length radius : R) : shape :=
  match k with
  | LeftArc => BendCircular (180 * length / (PI * radius))
  | StraightLine => Straight length
  | RightArc => BendCircular (- (180 * length / (PI * radius)))
  end.

(** A segment of one of the three kinds, of the given turning radius, that
    [gds_solution] renders as its kind says. *)
Definition segment_ok (c : R) (seg : segment) : Prop :=
  let '(letter, length, radius) := seg in
  radius = c
  /\ exists k, segment_kind letter = Some k
               /\ gds_step seg = Ok (render k length radius).

(** ** Uniform scaling

    A configuration moved by the scaling of factor [s] about the point [o];
    the heading is kept. *)
Definition scale_about (o : R * R) (s : R) (cfg : config) : config :=
  let '(x, y, yaw) := cfg in
  (fst o + s * (x - fst o), snd o + s * (y - snd o), yaw).

(** ** The remaining functions of route_dubin.py *)

(** [dubins_path_length(start, end, xs)]: the first lines of [dubins_path]
    up to [D], which is returned; [c] and [leyaw] are computed and not
    used. *)
Definition dubins_path_length (start end_ : config) (xs : CrossSection) : R :=
  let '(sx, sy, syaw) := start in
  let '(ex, ey, eyaw) := end_ in
  let syaw := radians syaw in
  let eyaw := radians eyaw in
  let c := radius xs in
  let ex := ex - sx in
  let ey := ey - sy in
  let lex := cos syaw * ex + sin syaw * ey in
  let ley := - sin syaw * ex + cos syaw * ey in
  let leyaw := eyaw - syaw in
  let D := sqrt (lex ^ 2 + ley ^ 2) in
  D.

(** [range(lo, hi)]. *)
Definition pyrange (lo hi : Z) : list Z :=
  map (fun i => (lo + Z.of_nat i)%Z) (seq 0 (Z.to_nat (hi - lo))).

(** [linear(START, END, STEPS)]: [START] and [END] are read at the indices 0
    and 1, [STEPS] is an integer, and the loop appends one abscissa and one
    ordinate per step. *)
Definition linear (START END : config) (STEPS : Z)
  : result (list R * list R) :=
  let '(START0, START1, _) := START in
  let '(END0, END1, _) := END in
  let Dx := END0 - START0 in
  let Dy := END1 - START1 in
  dx <- pydiv Dx (IZR STEPS) ;;
  dy <- pydiv Dy (IZR STEPS) ;;
  Ok (fold_left
        (fun (xy : list R * list R) (step : Z) =>
           let '(x, y) := xy in
           (x ++ [IZR step * dx + START0], y ++ [IZR step * dy + START1]))
        (pyrange 0 (STEPS + 1))
        ([], [])).

(** [arrow_orientation(ANGLE)]. *)
Definition arrow_orientation (ANGLE : R) : R * R :=
  let alpha_x := cos (radians ANGLE) in
  let alpha_y := sin (radians ANGLE) in
  (alpha_x, alpha_y).

(** What lines 108-110 make of a measure [m] whose letter is [c]. *)
Definition reflected (c : ascii) (m : R) : R :=
  if islower c then 2 * PI - m else m.

(** * The planner on binary64 floats

    The same lines of route_dubin.py with Python's floats as they are: the
    binary64 numbers of [PrimFloat], whose [+], [-], [*], [/] and [sqrt] round
    as the machine does.  The functions of the [math] module that the C
    library computes ([m.sin], [m.cos], [m.atan2], [m.acos] and the power
    behind [x ** 2.0]) are a parameter [libm] of every definition. *)

Module Float64.

Local Open Scope float_scope.

(** [m.pi]. *)
Definition m_pi : float := 0x1.921fb54442d18p+1.

(** The functions taken from the C library, each with the error Python may
    raise around it. *)
Record libm : Type := {
  m_sin : float -> result float;
  m_cos : float -> result float;
  m_atan2 : float -> float -> result float;
  m_acos : float -> result float;
  m_pow : float -> float -> result float
}.

(** [m.radians]. *)
Definition radians (deg : float) : float := deg * (m_pi / 180).

(** [m.floor]: the integer below a finite float; [ValueError] on NaN and
    [OverflowError] on an infinity. *)
Definition floor (x : float) : result Z :=
  match Prim2SF x with
  | S754_zero _ => Ok 0%Z
  | S754_infinity _ => Raise OverflowError
  | S754_nan => Raise ValueError
  | S754_finite s m e =>
      let n := if s then Z.neg m else Z.pos m in
      Ok (if (0 <=? e)%Z then (n * 2 ^ e)%Z else (n / 2 ^ (- e))%Z)
  end.

(** An integer as the float it becomes in [float * int]. *)
Definition of_int (k : Z) : float :=
  SF2Prim (binary_normalize prec emax k 0 false).

(** [m.sqrt]. *)
Definition m_sqrt (x : float) : result float :=
  if x <? 0 then Raise ValueError else Ok (PrimFloat.sqrt x).

(** [a / b]. *)
Definition pydiv (a b : float) : result float :=
  if b =? 0 then Raise ZeroDivisionError else Ok (a / b).

(** [sum(l)] of floats, added from the left starting at 0. *)
Definition pysum (l : list float) : float := fold_left PrimFloat.add l 0.

Fixpoint set_nth (i : nat) (v : float) (l : list float) : list float :=
  match l, i with
  | [], _ => []
  | _ :: r, O => v :: r
  | x :: r, S j => x :: set_nth j v r
  end.

(** [mod_to_pi]. *)
Definition mod_to_pi (angle : float) : result float :=
  k <- floor (angle / 2 / m_pi) ;;
  Ok (angle - 2 * m_pi * of_int k).

(** [pi_to_pi]: each [while] loop as a function of the number of tests of
    its condition it may still make, [None] when they run out. *)
Fixpoint pi_to_pi_down (fuel : nat) (angle : float) : option float :=
  match fuel with
  | O => None
  | S fuel' =>
      if m_pi <=? angle then pi_to_pi_down fuel' (angle - 2 * m_pi)
      else Some angle
  end.

Fixpoint pi_to_pi_up (fuel : nat) (angle : float) : option float :=
  match fuel with
  | O => None
  | S fuel' =>
      if angle <=? - m_pi then pi_to_pi_up fuel' (angle + 2 * m_pi)
      else Some angle
  end.

Definition pi_to_pi (fuel : nat) (angle : float) : option float :=
  match pi_to_pi_down fuel angle with
  | Some angle' => pi_to_pi_up fuel angle'
  | None => None
  end.

Definition solution : Type := (list float * list ascii * float)%type.

Definition reflect_at (planner : string) (path : list float) (i : nat)
  : result (list float) :=
  match String.get i planner with
  | None => Raise IndexError
  | Some ch =>
      if islower ch then Ok (set_nth i (2 * m_pi - nth i path 0) path)
      else Ok path
  end.

(** Lines 106-114. *)
Definition finish (planner : string) (t p q : float)
  : result (option solution) :=
  path <- reflect_at planner [t; p; q] 0 ;;
  path <- reflect_at planner path 2 ;;
  Ok (Some (path, list_ascii_of_string planner, pysum (map PrimFloat.abs path))).

Section Planner.

Variable lm : libm.

Definition general_planner (planner : string) (alpha beta d : float)
  : result (option solution) :=
  sa <- m_sin lm alpha ;;
  sb <- m_sin lm beta ;;
  ca <- m_cos lm alpha ;;
  cb <- m_cos lm beta ;;
  c_ab <- m_cos lm (alpha - beta) ;;
  let planner_uc := upper planner in
  if (planner_uc =? "LSL")%string then
    let tmp0 := d + sa - sb in
    let p_squared := 2 + (d * d) - (2 * c_ab) + (2 * d * (sa - sb)) in
    if p_squared <? 0 then Ok None
    else
      tmp1 <- m_atan2 lm (cb - ca) tmp0 ;;
      t <- mod_to_pi (- alpha + tmp1) ;;
      p <- m_sqrt p_squared ;;
      q <- mod_to_pi (beta - tmp1) ;;
      finish planner t p q
  else if (planner_uc =? "RSR")%string then
    let tmp0 := d - sa + sb in
    let p_squared := 2 + (d * d) - (2 * c_ab) + (2 * d * (sb - sa)) in
    if p_squared <? 0 then Ok None
    else
      tmp1 <- m_atan2 lm (ca - cb) tmp0 ;;
      t <- mod_to_pi (alpha - tmp1) ;;
      p <- m_sqrt p_squared ;;
      q <- mod_to_pi (- beta + tmp1) ;;
      finish planner t p q
  else if (planner_uc =? "LSR")%string then
    let p_squared := -2 + (d * d) + (2 * c_ab) + (2 * d * (sa + sb)) in
    if p_squared <? 0 then Ok None
    else
      p <- m_sqrt p_squared ;;
      a1 <- m_atan2 lm (- ca - cb) (d + sa + sb) ;;
      a2 <- m_atan2 lm (-2) p ;;
      let tmp2 := a1 - a2 in
      t <- mod_to_pi (- alpha + tmp2) ;;
      mb <- mod_to_pi beta ;;
      q <- mod_to_pi (- mb + tmp2) ;;
      finish planner t p q
  else if (planner_uc =? "RSL")%string then
    let p_squared := (d * d) - 2 + (2 * c_ab) - (2 * d * (sa + sb)) in
    if p_squared <? 0 then Ok None
    else
      p <- m_sqrt p_squared ;;
      a1 <- m_atan2 lm (ca + cb) (d - sa - sb) ;;
      a2 <- m_atan2 lm 2 p ;;
      let tmp2 := a1 - a2 in
      t <- mod_to_pi (alpha - tmp2) ;;
      q <- mod_to_pi (beta - tmp2) ;;
      finish planner t p q
  else if (planner_uc =? "RLR")%string then
    let tmp_rlr := (6 - d * d + 2 * c_ab + 2 * d * (sa - sb)) / 8 in
    if 1 <? PrimFloat.abs tmp_rlr then Ok None
    else
      ac <- m_acos lm tmp_rlr ;;
      p <- mod_to_pi (2 * m_pi - ac) ;;
      a1 <- m_atan2 lm (ca - cb) (d - sa + sb) ;;
      mp2 <- mod_to_pi (p / 2) ;;
      t <- mod_to_pi (alpha - a1 + mp2) ;;
      mp <- mod_to_pi p ;;
      q <- mod_to_pi (alpha - beta - t + mp) ;;
      finish planner t p q
  else if (planner_uc =? "LRL")%string then
    let tmp_lrl := (6 - d * d + 2 * c_ab + 2 * d * (- sa + sb)) / 8 in
    if 1 <? PrimFloat.abs tmp_lrl then Ok None
    else
      ac <- m_acos lm tmp_lrl ;;
      p <- mod_to_pi (2 * m_pi - ac) ;;
      a1 <- m_atan2 lm (ca - cb) (d + sa - sb) ;;
      t <- mod_to_pi (- alpha - a1 + p / 2) ;;
      mb <- mod_to_pi beta ;;
      mp <- mod_to_pi p ;;
      q <- mod_to_pi (mb - alpha - t + mp) ;;
      finish planner t p q
  else
    Raise UnboundLocalError.

(** The variables of the selection loop; [bcost] starts at
    [float("inf")]. *)
Record best : Type := {
  bt : option float;
  bp : option float;
  bq : option float;
  bmode : option (list ascii);
  bcost : float
}.

Definition best_init : best :=
  {| bt := None; bp := None; bq := None; bmode := None; bcost := PrimFloat.infinity |}.

(** Lines 139-167. *)
Definition dubins_normalize (c : float) (start end_ : float * float * float)
  : result (float * float * float) :=
  let '(sx, sy, syaw) := start in
  let '(ex, ey, eyaw) := end_ in
  let syaw := radians syaw in
  let eyaw := radians eyaw in
  let ex := ex - sx in
  let ey := ey - sy in
  cs <- m_cos lm syaw ;;
  sn <- m_sin lm syaw ;;
  let lex := cs * ex + sn * ey in
  sn' <- m_sin lm syaw ;;
  cs' <- m_cos lm syaw ;;
  let ley := - sn' * ex + cs' * ey in
  let leyaw := eyaw - syaw in
  lex2 <- m_pow lm lex 2 ;;
  ley2 <- m_pow lm ley 2 ;;
  D <- m_sqrt (lex2 + ley2) ;;
  d <- pydiv D c ;;
  a <- m_atan2 lm ley lex ;;
  theta <- mod_to_pi a ;;
  alpha <- mod_to_pi (- theta) ;;
  beta <- mod_to_pi (leyaw - theta) ;;
  Ok (alpha, beta, d).

(** Lines 176-182. *)
Definition consider (b : best) (sol : option solution) : result best :=
  match sol with
  | None => Ok b
  | Some (path, mode, cost) =>
      match path with
      | [t; p; q] =>
          if cost <? bcost b then
            Ok {| bt := Some t; bp := Some p; bq := Some q;
                  bmode := Some mode; bcost := cost |}
          else Ok b
      | _ => Raise ValueError
      end
  end.

(** Lines 174-182. *)
Fixpoint select_loop (pls : list string) (alpha beta d : float) (b : best)
  : result best :=
  match pls with
  | [] => Ok b
  | planner :: rest =>
      sol <- general_planner planner alpha beta d ;;
      b' <- consider b sol ;;
      select_loop rest alpha beta d b'
  end.

(** Lines 139-182 for a cross-section of radius [c]. *)
Definition dubins_plan (c : float) (start end_ : float * float * float)
  : result best :=
  n <- dubins_normalize c start end_ ;;
  let '(alpha, beta, d) := n in
  select_loop planners alpha beta d best_init.

End Planner.

(** ** The C library at the arguments of two runs

    What CPython on glibc answers for the arguments that the runs
    (0, 0, 0) -> (1, 1, 90) with radius 1 and (0, 0, 0) -> (3, 3, 90) with
    radius 3 pass to the C library.  An argument that is not listed has no
    answer here and stops the run. *)

(** Equality of floats that tells 0 from -0. *)
Definition same (x y : float) : bool := (x =? y) && (1 / x =? 1 / y).

Fixpoint lookup1 (tbl : list (float * float)) (x : float) : result float :=
  match tbl with
  | [] => Raise ValueError
  | (a, r) :: rest => if same a x then Ok r else lookup1 rest x
  end.

Fixpoint lookup2 (tbl : list (float * float * float)) (x y : float)
  : result float :=
  match tbl with
  | [] => Raise ValueError
  | (a, b, r) :: rest =>
      if same a x && same b y then Ok r else lookup2 rest x y
  end.

Definition sin_table : list (float * float) :=
  [ (0, 0);
    (0x1.5fdbbe9bba775p+2, -0x1.6a09e667f3bcep-1);
    (0x1.921fb54442d18p-1, 0x1.6a09e667f3bccp-1) ].

Definition cos_table : list (float * float) :=
  [ (0, 1);
    (0x1.5fdbbe9bba775p+2, 0x1.6a09e667f3bcbp-1);
    (0x1.921fb54442d18p-1, 0x1.6a09e667f3bcdp-1);
    (0x1.2d97c7f3321d2p+2, -0x1.a79394c9e8a0ap-53) ].

Definition atan2_table : list (float * float * float) :=
  [ (1, 1, 0x1.921fb54442d18p-1);
    (3, 3, 0x1.921fb54442d18p-1);
    (-0x1p-52, 0x1.6a09e667f3bcdp+1, -0x1.6a09e667f3bccp-54);
    (0x1.6a09e667f3bccp+0, 0x1.6a09e667f3bcep+0, 0x1.921fb54442d17p-1);
    (2, 0x1.c81206631d675p-26, 0x1.921fb50b4090cp+0);
    (-0x1p-52, 0, -0x1.921fb54442d18p+0);
    (0x1p-52, -0x1p-52, 0x1.2d97c7f3321d2p+1);
    (-0x1p-52, -0x1p-52, -0x1.2d97c7f3321d2p+1) ].

Definition acos_table : list (float * float) :=
  [ (-0x1p-52, 0x1.921fb54442d19p+0);
    (1, 0);
    (-0x1p-54, 0x1.921fb54442d19p+0) ].

Definition pow_table : list (float * float * float) :=
  [ (1, 2, 1); (3, 2, 9) ].

Definition glibc_at_two_runs : libm :=
  {| m_sin := lookup1 sin_table;
     m_cos := lookup1 cos_table;
     m_atan2 := lookup2 atan2_table;
     m_acos := lookup1 acos_table;
     m_pow := lookup2 pow_table |}.

(** [lm] gives every answer that [tb] gives. *)
Definition extends (lm tb : libm) : Prop :=
  (forall x r, m_sin tb x = Ok r -> m_sin lm x = Ok r)
  /\ (forall x r, m_cos tb x = Ok r -> m_cos lm x = Ok r)
  /\ (forall x y r, m_atan2 tb x y = Ok r -> m_atan2 lm x y = Ok r)
  /\ (forall x r, m_acos tb x = Ok r -> m_acos lm x = Ok r)
  /\ (forall x y r, m_pow tb x y = Ok r -> m_pow lm x y = Ok r).

End Float64.

(** * Properties *)

(** ** Angle reduction *)

Lemma floor_bounds (x : R) : floor x <= x < floor x + 1.
Proof.
  unfold floor. destruct (base_Int_part x) as [Hlo Hhi]. split; lra.
Qed.

Lemma two_PI_pos : 0 < 2 * PI.
Proof. pose proof PI_RGT_0. lra. Qed.

Lemma mod_to_pi_range (a : R) : 0 <= mod_to_pi a < 2 * PI.
Proof.
  unfold mod_to_pi.
  pose proof PI_RGT_0 as Hpi.
  destruct (floor_bounds (a / 2 / PI)) as [Hlo Hhi].
  set (k := floor (a / 2 / PI)) in *.
  assert (Ha : a = 2 * PI * (a / 2 / PI)) by (field; lra).
  split.
  - assert (2 * PI * k <= 2 * PI * (a / 2 / PI)) by (apply Rmult_le_compat_l; lra).
    lra.
  - assert (2 * PI * (a / 2 / PI) < 2 * PI * (k + 1)) by (apply Rmult_lt_compat_l; lra).
    lra.
Qed.

Lemma pymod_range (a b : R) : 0 < b -> 0 <= pymod a b < b.
Proof.
  intros Hb. unfold pymod.
  destruct (floor_bounds (a / b)) as [Hlo Hhi].
  set (k := floor (a / b)) in *.
  assert (Ha : a = b * (a / b)) by (field; lra).
  split.
  - assert (b * k <= b * (a / b)) by (apply Rmult_le_compat_l; lra). lra.
  - assert (b * (a / b) < b * (k + 1)) by (apply Rmult_lt_compat_l; lra). lra.
Qed.

(** ** Feasibility of the two same-side families over the reals *)

Lemma cos_diff (a b : R) : cos (a - b) = cos a * cos b + sin a * sin b.
Proof. apply cos_minus. Qed.

Lemma LSL_p_squared_nonneg (alpha beta d : R) :
  0 <= 2 + (d * d) - (2 * cos (alpha - beta))
       + (2 * d * (sin alpha - sin beta)).
Proof.
  rewrite cos_diff.
  pose proof (sin2_cos2 alpha) as Ha. pose proof (sin2_cos2 beta) as Hb.
  unfold Rsqr in Ha, Hb.
  replace (2 + d * d - 2 * (cos alpha * cos beta + sin alpha * sin beta)
           + 2 * d * (sin alpha - sin beta))
    with ((d + sin alpha - sin beta) * (d + sin alpha - sin beta)
          + (cos beta - cos alpha) * (cos beta - cos alpha)) by nra.
  pose proof (Rle_0_sqr (d + sin alpha - sin beta)) as H1.
  pose proof (Rle_0_sqr (cos beta - cos alpha)) as H2.
  unfold Rsqr in H1, H2. lra.
Qed.

(** ** The family solver against the table of the specification *)

Lemma canon_mod_to_pi (a : R) : canon a = mod_to_pi a.
Proof.
  unfold canon, mod_to_pi. pose proof PI_RGT_0.
  replace (a / (2 * PI)) with (a / 2 / PI) by (field; lra). reflexivity.
Qed.

Lemma pysum3 (x y z : R) : pysum [x; y; z] = x + y + z.
Proof. unfold pysum. simpl. ring. Qed.

Ltac decide_R :=
  repeat match goal with
    | |- context [Rlt_dec ?a ?b] => destruct (Rlt_dec a b)
    | |- context [Rle_dec ?a ?b] => destruct (Rle_dec a b)
    end.

Lemma general_planner_table (f : family) (alpha beta d : R) :
  general_planner (family_code f) alpha beta d
  = Ok (option_map (as_solution f) (spec_evaluate f alpha beta d)).
Proof.
  destruct f;
    unfold general_planner, general_planner_with, finish_with, reflect,
      reflect_at, spec_evaluate, spec_measures, spec_test_value, as_solution;
    simpl; rewrite ?Rmult_1_r, ?canon_mod_to_pi, ?pysum3;
    try replace (- sin alpha + sin beta) with (sin beta - sin alpha) by ring;
    decide_R; simpl; rewrite ?canon_mod_to_pi; try reflexivity; try lra.
Qed.

(** C4. For every (alpha, beta, d) and each of the six families,
    [general_planner] returns "infeasible" ([None]) exactly when the
    feasibility test of the specification's table fails, and otherwise the
    (t, p, q) of the table's closed form for that family, packed with the
    family's letters and the cost. *)
Theorem general_planner_matches_family_table (f : family) (alpha beta d : R) :
  (~ spec_feasible f alpha beta d
   /\ general_planner (family_code f) alpha beta d = Ok None)
  \/ (spec_feasible f alpha beta d
      /\ general_planner (family_code f) alpha beta d
         = Ok (Some (as_solution f (spec_measures f alpha beta d)))).
Proof.
  rewrite general_planner_table.
  destruct f; unfold spec_evaluate, spec_feasible; decide_R; simpl; tauto.
Qed.

(** ** Non-negative measures *)

Lemma finish_reflect_nonneg (planner : string) (t p q : R)
  (path : list R) (mode : list ascii) (cost : R) :
  0 <= t <= 2 * PI -> 0 <= p -> 0 <= q <= 2 * PI ->
  finish_with reflect planner t p q = Ok (Some (path, mode, cost)) ->
  mode = list_ascii_of_string planner
  /\ exists t' p' q',
      path = [t'; p'; q'] /\ 0 <= t' /\ 0 <= p' /\ 0 <= q'
      /\ cost = t' + p' + q'.
Proof.
  intros Ht Hp Hq.
  unfold finish_with, reflect, reflect_at.
  destruct (String.get 0 planner) as [c0|]; [|discriminate].
  destruct (String.get 2 planner) as [c2|];
    [|destruct (islower c0); discriminate].
  destruct (islower c0), (islower c2); simpl; intros H;
    injection H as <- <- <-; rewrite pysum3;
    (split; [reflexivity|]);
    (eexists; eexists; eexists; split; [reflexivity|]);
    rewrite !Rabs_pos_eq by lra; repeat split; lra.
Qed.

Lemma general_planner_shape (planner : string) (alpha beta d : R)
  (path : list R) (mode : list ascii) (cost : R) :
  general_planner planner alpha beta d = Ok (Some (path, mode, cost)) ->
  mode = list_ascii_of_string planner
  /\ exists t p q,
      path = [t; p; q] /\ 0 <= t /\ 0 <= p /\ 0 <= q /\ cost = t + p + q.
Proof.
  unfold general_planner, general_planner_with.
  repeat match goal with
    | |- context [(?a =? ?b)%string] => destruct (a =? b)%string
    end;
    try discriminate;
    match goal with
    | |- context [Rlt_dec ?a ?b] => destruct (Rlt_dec a b); [discriminate|]
    end;
    apply finish_reflect_nonneg;
    repeat match goal with
      | |- _ <= mod_to_pi ?x <= _ =>
          pose proof (mod_to_pi_range x); lra
      | |- _ <= mod_to_pi ?x =>
          pose proof (mod_to_pi_range x); lra
      | |- _ <= sqrt ?x => apply sqrt_pos
      end.
Qed.

(** ** The selection loop *)

Lemma nth_error_snoc {A : Type} (l : list A) (x y : A) (j : nat) :
  nth_error (l ++ [x]) j = Some y ->
  nth_error l j = Some y /\ (j < List.length l)%nat
  \/ j = List.length l /\ x = y.
Proof.
  intros H.
  destruct (Nat.lt_ge_cases j (List.length l)) as [Hlt | Hge].
  - rewrite nth_error_app1 in H by assumption. auto.
  - rewrite nth_error_app2 in H by assumption.
    destruct (j - List.length l)%nat as [|k] eqn:E; simpl in H.
    + injection H as ->. right. split; [lia | reflexivity].
    + destruct k; discriminate.
Qed.

Lemma consider_first_minimum (seen : list (option solution)) (b : best)
  (sol : option solution) :
  first_minimum seen b -> three_measures sol ->
  exists b', consider b sol = Ok b' /\ first_minimum (seen ++ [sol]) b'.
Proof.
  intros Hb Hwf.
  destruct sol as [[[path mode] cost]|]; simpl in *.
  - destruct path as [|t [|p [|q [|? ?]]]]; try discriminate.
    destruct Hb as [Hnone | i t0 p0 q0 mode0 cost0 Hi Hmin]; simpl.
    + eexists; split; [reflexivity|].
      apply (fm_taken _ (List.length seen)).
      * rewrite nth_error_app2, Nat.sub_diag by lia. reflexivity.
      * intros j path' mode' cost' Hj.
        apply nth_error_snoc in Hj as [[Hj _] | [-> Hj]].
        -- apply nth_error_In in Hj.
           rewrite Forall_forall in Hnone. apply Hnone in Hj. discriminate.
        -- injection Hj as <- <- <-. split; [lra | lia].
    + destruct (Rlt_dec cost cost0) as [Hlt | Hge].
      * eexists; split; [reflexivity|].
        apply (fm_taken _ (List.length seen)).
        -- rewrite nth_error_app2, Nat.sub_diag by lia. reflexivity.
        -- intros j path' mode' cost' Hj.
           apply nth_error_snoc in Hj as [[Hj Hlen] | [-> Hj]].
           ++ destruct (Hmin _ _ _ _ Hj) as [Hle _]. split; intros; lra.
           ++ injection Hj as <- <- <-. split; [lra | lia].
      * eexists; split; [reflexivity|].
        apply (fm_taken _ i).
        -- rewrite nth_error_app1; [assumption|].
           apply nth_error_Some. rewrite Hi. discriminate.
        -- intros j path' mode' cost' Hj.
           apply nth_error_snoc in Hj as [[Hj Hlen] | [-> Hj]].
           ++ exact (Hmin _ _ _ _ Hj).
           ++ injection Hj as <- <- <-. split; [lra|].
              intros Hlt. assert (i < List.length seen)%nat; [|lia].
              apply nth_error_Some. rewrite Hi. discriminate.
  - exists b. split; [reflexivity|].
    destruct Hb as [Hnone | i t0 p0 q0 mode0 cost0 Hi Hmin].
    + apply fm_none. apply Forall_app. split; [assumption|].
      constructor; [reflexivity | constructor].
    + apply (fm_taken _ i).
      * rewrite nth_error_app1; [assumption|].
        apply nth_error_Some. rewrite Hi. discriminate.
      * intros j path' mode' cost' Hj.
        apply nth_error_snoc in Hj as [[Hj Hlen] | [-> Hj]].
        -- exact (Hmin _ _ _ _ Hj).
        -- discriminate.
Qed.

Section SelectorFacts.

Variable gp : string -> R -> R -> R -> result (option solution).
Variables alpha beta d : R.

Lemma select_loop_first_minimum (pls : list string)
  (sols : list (option solution)) :
  Forall2 (answers gp alpha beta d) pls sols ->
  forall seen b,
    first_minimum seen b ->
    exists b',
      select_loop gp pls alpha beta d b = Ok b'
      /\ first_minimum (seen ++ sols) b'.
Proof.
  induction 1 as [|planner sol pls sols [Hgp Hwf] _ IH]; intros seen b Hb.
  - exists b. rewrite app_nil_r. split; [reflexivity | assumption].
  - destruct (consider_first_minimum seen b sol Hb Hwf) as (b1 & Hc & Hb1).
    destruct (IH _ _ Hb1) as (b' & Hloop & Hb').
    exists b'. simpl. rewrite Hgp. simpl. rewrite Hc. simpl.
    rewrite <- app_assoc in Hb'. split; assumption.
Qed.

End SelectorFacts.

(** ** The source's solver under the loop *)

Lemma Forall2_nth_error_l {A B : Type} (P : A -> B -> Prop)
  (l : list A) (l' : list B) :
  Forall2 P l l' ->
  forall i x, nth_error l i = Some x ->
              exists y, nth_error l' i = Some y /\ P x y.
Proof.
  induction 1 as [|a b l l' Hab _ IH]; intros [|i] x Hx;
    simpl in *; try discriminate.
  - injection Hx as <-. eauto.
  - eauto.
Qed.

Lemma Forall2_nth_error_r {A B : Type} (P : A -> B -> Prop)
  (l : list A) (l' : list B) :
  Forall2 P l l' ->
  forall i y, nth_error l' i = Some y ->
              exists x, nth_error l i = Some x /\ P x y.
Proof.
  induction 1 as [|a b l l' Hab _ IH]; intros [|i] y Hy;
    simpl in *; try discriminate.
  - injection Hy as <-. eauto.
  - eauto.
Qed.

Lemma general_planner_answers_family (f : family) (alpha beta d : R) :
  answers general_planner alpha beta d (family_code f)
    (option_map (as_solution f) (spec_evaluate f alpha beta d)).
Proof.
  split; [apply general_planner_table|].
  destruct (spec_evaluate f alpha beta d) as [[[t p] q]|]; simpl; trivial.
Qed.

Lemma LSL_always_feasible (alpha beta d : R) :
  spec_evaluate LSL alpha beta d = Some (spec_measures LSL alpha beta d).
Proof.
  unfold spec_evaluate. destruct (Rle_dec _ _) as [_|Hn]; [reflexivity|].
  exfalso. apply Hn. unfold spec_test_value.
  pose proof (LSL_p_squared_nonneg alpha beta d) as H.
  simpl. rewrite Rmult_1_r. exact H.
Qed.

(** The six answers of [general_planner], the first of which is feasible. *)
Lemma general_planner_answers (alpha beta d : R) :
  exists s0 sols,
    Forall2 (answers general_planner alpha beta d) planners (Some s0 :: sols).
Proof.
  pose proof (general_planner_answers_family LSL alpha beta d) as H0.
  rewrite LSL_always_feasible in H0. simpl option_map in H0.
  eexists. eexists. unfold planners.
  constructor; [exact H0|].
  constructor; [exact (general_planner_answers_family RSR alpha beta d)|].
  constructor; [exact (general_planner_answers_family LSR alpha beta d)|].
  constructor; [exact (general_planner_answers_family RSL alpha beta d)|].
  constructor; [exact (general_planner_answers_family RLR alpha beta d)|].
  constructor; [exact (general_planner_answers_family LRL alpha beta d)|].
  constructor.
Qed.

(** Over the reals the loop always takes a family: the feasible one of least
    cost, the first in the order of [planners] among equals. *)
Lemma select_loop_general_planner (alpha beta d : R) :
  exists i planner t p q,
    nth_error planners i = Some planner
    /\ general_planner planner alpha beta d
       = Ok (Some ([t; p; q], list_ascii_of_string planner, t + p + q))
    /\ 0 <= t /\ 0 <= p /\ 0 <= q
    /\ select_loop general_planner planners alpha beta d best_init
       = Ok (taken t p q (list_ascii_of_string planner) (t + p + q))
    /\ forall j planner' path' mode' cost',
        nth_error planners j = Some planner' ->
        general_planner planner' alpha beta d
        = Ok (Some (path', mode', cost')) ->
        t + p + q <= cost' /\ ((j < i)%nat -> t + p + q < cost').
Proof.
  destruct (general_planner_answers alpha beta d) as (s0 & sols & Hans).
  destruct (select_loop_first_minimum _ _ _ _ _ _ Hans [] best_init)
    as (b & Hloop & Hb).
  { apply fm_none. constructor. }
  simpl app in Hb.
  destruct Hb as [Hnone | i t p q mode cost Hi Hmin].
  - inversion Hnone; discriminate.
  - destruct (Forall2_nth_error_r _ _ _ Hans _ _ Hi) as (planner & Hpl & Hgp & _).
    destruct (general_planner_shape _ _ _ _ _ _ _ Hgp)
      as (-> & t' & p' & q' & Hpath & Ht & Hp & Hq & ->).
    injection Hpath as -> -> ->.
    exists i, planner, t', p', q'.
    do 6 (split; [assumption|]).
    intros j planner' path' mode' cost' Hj Hgp'.
    destruct (Forall2_nth_error_l _ _ _ Hans _ _ Hj) as (sol & Hsol & Hgp2 & _).
    rewrite Hgp' in Hgp2. injection Hgp2 as <-.
    exact (Hmin _ _ _ _ Hsol).
Qed.

(** C3. The selector goes through the six families in the order LSL, RSR,
    LSR, RSL, RLR, LRL and ends with the feasible family of minimum cost
    t + p + q; the comparison is strict, so among feasible families of equal
    minimum cost the earliest in that order is the one kept. *)
Theorem selector_keeps_first_minimum (alpha beta d : R) :
  planners = ["LSL"; "RSR"; "LSR"; "RSL"; "RLR"; "LRL"]%string
  /\ exists i planner t p q,
      nth_error planners i = Some planner
      /\ general_planner planner alpha beta d
         = Ok (Some ([t; p; q], list_ascii_of_string planner, t + p + q))
      /\ select_loop general_planner planners alpha beta d best_init
         = Ok (taken t p q (list_ascii_of_string planner) (t + p + q))
      /\ forall j planner' path' mode' cost',
          nth_error planners j = Some planner' ->
          general_planner planner' alpha beta d
          = Ok (Some (path', mode', cost')) ->
          t + p + q <= cost' /\ ((j < i)%nat -> t + p + q < cost').
Proof.
  split; [reflexivity|].
  destruct (select_loop_general_planner alpha beta d)
    as (i & planner & t & p & q & Hi & Hgp & _ & _ & _ & Hloop & Hmin).
  exists i, planner, t, p, q. auto.
Qed.

(** C6. Every feasible result of [general_planner], after the post-processing
    of lines 108-110, has three measures t, p, q that are non-negative, and
    its cost, the sum of their absolute values, equals t + p + q. *)
Theorem feasible_measures_nonnegative (planner : string) (alpha beta d : R)
  (path : list R) (mode : list ascii) (cost : R) :
  general_planner planner alpha beta d = Ok (Some (path, mode, cost)) ->
  exists t p q,
    path = [t; p; q] /\ 0 <= t /\ 0 <= p /\ 0 <= q
    /\ cost = Rabs t + Rabs p + Rabs q /\ cost = t + p + q.
Proof.
  intros H.
  destruct (general_planner_shape _ _ _ _ _ _ _ H)
    as (_ & t & p & q & Hpath & Ht & Hp & Hq & Hcost).
  exists t, p, q. rewrite !Rabs_pos_eq by assumption. auto 10.
Qed.

Lemma feasible_measures_nonnegative_witness :
  exists path mode cost,
    general_planner "LSL" 0 0 1 = Ok (Some (path, mode, cost))
    /\ exists t p q,
        path = [t; p; q] /\ 0 <= t /\ 0 <= p /\ 0 <= q
        /\ cost = Rabs t + Rabs p + Rabs q /\ cost = t + p + q.
Proof.
  pose proof (general_planner_table LSL 0 0 1) as H.
  rewrite LSL_always_feasible in H. cbn [option_map family_code] in H.
  destruct (as_solution LSL (spec_measures LSL 0 0 1)) as [[path mode] cost].
  exists path, mode, cost. split; [exact H|].
  exact (feasible_measures_nonnegative "LSL" 0 0 1 path mode cost H).
Defined.

(** ** The planner as a whole *)

Lemma pydiv_zero (a : R) : pydiv a 0 = Raise ZeroDivisionError.
Proof. unfold pydiv. destruct (Req_dec_T 0 0); [reflexivity | congruence]. Qed.

Lemma pydiv_nonzero (a b : R) : b <> 0 -> pydiv a b = Ok (a / b).
Proof. intros Hb. unfold pydiv. destruct (Req_dec_T b 0); [contradiction | reflexivity]. Qed.

Lemma dubins_normalize_zero (xs : CrossSection) (start end_ : config) :
  radius xs = 0 -> dubins_normalize xs start end_ = Raise ZeroDivisionError.
Proof.
  intros Hc. destruct start as [[sx sy] syaw], end_ as [[ex ey] eyaw].
  unfold dubins_normalize. rewrite Hc, pydiv_zero. reflexivity.
Qed.

Lemma dubins_normalize_nonzero (xs : CrossSection) (start end_ : config) :
  radius xs <> 0 ->
  exists alpha beta d, dubins_normalize xs start end_ = Ok (alpha, beta, d).
Proof.
  intros Hc. destruct start as [[sx sy] syaw], end_ as [[ex ey] eyaw].
  unfold dubins_normalize. rewrite pydiv_nonzero by assumption. simpl. eauto.
Qed.

Lemma planner_letters (i : nat) (planner : string) :
  nth_error planners i = Some planner ->
  exists l0 l1 l2,
    list_ascii_of_string planner = [l0; l1; l2]
    /\ Forall (fun l => l = "L" \/ l = "S" \/ l = "R")%char [l0; l1; l2].
Proof.
  intros H.
  do 6 (destruct i as [|i];
        [injection H as <-; simpl; do 3 eexists;
         split; [reflexivity |
                 repeat first [apply Forall_nil
                              | apply Forall_cons; [solve [auto] |]]] |]).
  destruct i; discriminate.
Qed.

(** The whole of [dubins_path]: a zero radius stops it at [d = D / c]; any
    other radius gives the three segments of the family the loop kept. *)
Lemma dubins_path_cases (xs : CrossSection) (start end_ : config) :
  (radius xs = 0 /\ dubins_path xs start end_ = Raise ZeroDivisionError)
  \/ (radius xs <> 0
      /\ exists alpha beta d i planner t p q l0 l1 l2,
          dubins_normalize xs start end_ = Ok (alpha, beta, d)
          /\ nth_error planners i = Some planner
          /\ list_ascii_of_string planner = [l0; l1; l2]
          /\ Forall (fun l => l = "L" \/ l = "S" \/ l = "R")%char [l0; l1; l2]
          /\ general_planner planner alpha beta d
             = Ok (Some ([t; p; q], [l0; l1; l2], t + p + q))
          /\ select_loop general_planner planners alpha beta d best_init
             = Ok (taken t p q [l0; l1; l2] (t + p + q))
          /\ dubins_path xs start end_
             = Ok [(l0, t * radius xs, radius xs);
                   (l1, p * radius xs, radius xs);
                   (l2, q * radius xs, radius xs)]).
Proof.
  destruct (Req_dec_T (radius xs) 0) as [Hc | Hc].
  - left. split; [assumption|].
    unfold dubins_path, dubins_path_with, dubins_plan_with.
    rewrite dubins_normalize_zero by assumption. reflexivity.
  - right. split; [assumption|].
    destruct (dubins_normalize_nonzero xs start end_ Hc) as (alpha & beta & d & Hn).
    destruct (select_loop_general_planner alpha beta d)
      as (i & planner & t & p & q & Hi & Hgp & _ & _ & _ & Hloop & _).
    destruct (planner_letters i planner Hi) as (l0 & l1 & l2 & Hl & Hlsr).
    rewrite Hl in *.
    exists alpha, beta, d, i, planner, t, p, q, l0, l1, l2.
    do 6 (split; [assumption|]).
    unfold dubins_path, dubins_path_with, dubins_plan_with.
    rewrite Hn. cbn [bind]. rewrite Hloop. reflexivity.
Qed.

Lemma segment_ok_letter (c : R) (l : ascii) (len : R) :
  c <> 0 -> (l = "L" \/ l = "S" \/ l = "R")%char -> segment_ok c (l, len, c).
Proof.
  intros Hc Hl. split; [reflexivity|].
  assert (Hpi : PI * c <> 0).
  { pose proof PI_RGT_0. apply Rmult_integral_contrapositive. split; lra. }
  destruct Hl as [-> | [-> | ->]].
  - exists LeftArc. split; [reflexivity|].
    unfold gds_step. simpl. rewrite pydiv_nonzero by assumption. reflexivity.
  - exists StraightLine. split; reflexivity.
  - exists RightArc. split; [reflexivity|].
    unfold gds_step. simpl. rewrite pydiv_nonzero by assumption. reflexivity.
Qed.

(** C1, as the code has it. [dubins_path] does not validate the radius and
    raises no [InvalidRadiusError]: a radius of 0 stops it with
    [ZeroDivisionError] at [d = D / c], after the local frame and [D] have
    been computed, and every other radius, the negative ones included, is
    planned with and gives three segments. *)
Theorem radius_is_not_validated (xs : CrossSection) (start end_ : config) :
  dubins_path xs start end_ <> Raise InvalidRadiusError
  /\ ((radius xs = 0
       /\ dubins_path xs start end_ = Raise ZeroDivisionError)
      \/ (radius xs <> 0
          /\ exists segs,
              dubins_path xs start end_ = Ok segs
              /\ List.length segs = 3%nat)).
Proof.
  destruct (dubins_path_cases xs start end_)
    as [[Hc Hp] | (Hc & alpha & beta & d & i & planner & t & p & q
                   & l0 & l1 & l2 & _ & _ & _ & _ & _ & _ & Hp)];
    rewrite Hp; (split; [discriminate|]).
  - left. auto.
  - right. split; [assumption|]. eexists. split; reflexivity.
Qed.

(** C1 fails on the code: with radius 0 the call ends in
    [ZeroDivisionError], and with radius -1 it returns a path. *)
Lemma radius_zero_and_negative_not_rejected :
  dubins_path {| radius := 0 |} (0, 0, 0) (1, 0, 0)
  = Raise ZeroDivisionError
  /\ exists segs,
      dubins_path {| radius := -1 |} (0, 0, 0) (1, 0, 0) = Ok segs.
Proof.
  split.
  - destruct (dubins_path_cases {| radius := 0 |} (0, 0, 0) (1, 0, 0))
      as [[_ Hp] | [Hc _]]; [exact Hp | simpl in Hc; lra].
  - destruct (dubins_path_cases {| radius := -1 |} (0, 0, 0) (1, 0, 0))
      as [[Hc _] | (_ & alpha & beta & d & i & planner & t & p & q
                    & l0 & l1 & l2 & _ & _ & _ & _ & _ & _ & Hp)];
      [simpl in Hc; lra | eauto].
Qed.


(** C7. A successful call returns exactly three segments in traversal order:
    they carry the three letters of the family the loop kept, each letter
    stands for its kind (L a left-turn arc, S a straight, R a right-turn arc,
    and [gds_solution] renders it so), each length is the normalized measure
    times the radius, and each segment's radius is the input radius. *)
Theorem path_is_winner_times_radius (xs : CrossSection) (start end_ : config)
  (segs : list segment) :
  dubins_path xs start end_ = Ok segs ->
  exists alpha beta d i planner t p q l0 l1 l2,
    dubins_normalize xs start end_ = Ok (alpha, beta, d)
    /\ nth_error planners i = Some planner
    /\ planner = String l0 (String l1 (String l2 EmptyString))
    /\ select_loop general_planner planners alpha beta d best_init
       = Ok (taken t p q [l0; l1; l2] (t + p + q))
    /\ segs = [(l0, t * radius xs, radius xs);
               (l1, p * radius xs, radius xs);
               (l2, q * radius xs, radius xs)]
    /\ List.length segs = 3%nat
    /\ Forall (segment_ok (radius xs)) segs.
Proof.
  intros Hsegs.
  destruct (dubins_path_cases xs start end_)
    as [[_ Hp] | (Hc & alpha & beta & d & i & planner & t & p & q
                  & l0 & l1 & l2 & Hn & Hi & Hpl & Hl & _ & Hloop & Hp)];
    rewrite Hp in Hsegs; [discriminate|].
  injection Hsegs as <-.
  exists alpha, beta, d, i, planner, t, p, q, l0, l1, l2.
  split; [assumption|]. split; [assumption|].
  split.
  { rewrite <- (string_of_list_ascii_of_string planner), Hpl. reflexivity. }
  split; [assumption|]. split; [reflexivity|]. split; [reflexivity|].
  inversion Hl as [|? ? H0 Hl1]; subst.
  inversion Hl1 as [|? ? H1 Hl2]; subst.
  inversion Hl2 as [|? ? H2 _]; subst.
  repeat constructor; apply segment_ok_letter; assumption.
Qed.

Lemma path_is_winner_times_radius_witness :
  exists segs,
    dubins_path {| radius := 1 |} (0, 0, 0) (1, 0, 0) = Ok segs
    /\ List.length segs = 3%nat
    /\ Forall (segment_ok 1) segs.
Proof.
  destruct (dubins_path_cases {| radius := 1 |} (0, 0, 0) (1, 0, 0))
    as [[Hc _] | (_ & alpha & beta & d & i & planner & t & p & q
                  & l0 & l1 & l2 & _ & _ & _ & _ & _ & _ & Hp)].
  - exfalso. simpl in Hc. lra.
  - eexists. split; [exact Hp|].
    destruct (path_is_winner_times_radius _ _ _ _ Hp)
      as (_ & _ & _ & _ & _ & _ & _ & _ & _ & _ & _
          & _ & _ & _ & _ & _ & Hlen & Hok).
    split; [exact Hlen | exact Hok].
Defined.

(** ** Normalization *)

(** C5. For a radius other than 0, the normalization gives
    d = sqrt(local_x^2 + local_y^2) / radius with
    local_x = cos(h1) dx + sin(h1) dy and local_y = - sin(h1) dx + cos(h1) dy,
    alpha = canon(- theta) and beta = canon((h2 - h1) - theta) with
    theta = canon(atan2(local_y, local_x)), the headings h1, h2 being the
    given degrees turned into radians; and canon(a) = a - 2 pi floor(a / 2 pi)
    lies in [0, 2 pi) for every a. *)
Theorem normalization_formulas (xs : CrossSection)
  (sx sy heading1 ex ey heading2 : R) :
  radius xs <> 0 ->
  let h1 := radians heading1 in
  let h2 := radians heading2 in
  let dx := ex - sx in
  let dy := ey - sy in
  let local_x := cos h1 * dx + sin h1 * dy in
  let local_y := - sin h1 * dx + cos h1 * dy in
  let theta := canon (atan2 local_y local_x) in
  dubins_normalize xs (sx, sy, heading1) (ex, ey, heading2)
  = Ok (canon (- theta),
        canon ((h2 - h1) - theta),
        sqrt (local_x ^ 2 + local_y ^ 2) / radius xs)
  /\ forall a,
      canon a = a - 2 * PI * IZR (Int_part (a / (2 * PI)))
      /\ 0 <= canon a < 2 * PI.
Proof.
  intros Hc h1 h2 dx dy local_x local_y theta. split.
  - unfold dubins_normalize. rewrite pydiv_nonzero by assumption.
    cbn [bind]. unfold theta. rewrite !canon_mod_to_pi. reflexivity.
  - intros a. split; [reflexivity|].
    rewrite canon_mod_to_pi. apply mod_to_pi_range.
Qed.

Lemma normalization_formulas_witness :
  exists alpha beta d,
    dubins_normalize {| radius := 1 |} (0, 0, 0) (1, 0, 90)
    = Ok (alpha, beta, d).
Proof.
  assert (Hc : radius {| radius := 1 |} <> 0) by (simpl; lra).
  do 3 eexists.
  exact (proj1 (normalization_formulas {| radius := 1 |} 0 0 0 1 0 90 Hc)).
Defined.

(** ** Uniform scaling *)

Lemma atan2_scale (s y x : R) : 0 < s -> atan2 (s * y) (s * x) = atan2 y x.
Proof.
  intros Hs. unfold atan2.
  assert (Hq : x <> 0 -> s * y / (s * x) = y / x) by (intros; field; lra).
  destruct (Rlt_dec 0 x) as [Hx | Hx].
  - destruct (Rlt_dec 0 (s * x)) as [_ | Hn]; [|exfalso; nra].
    rewrite Hq by lra. reflexivity.
  - destruct (Rlt_dec 0 (s * x)) as [Hp | _]; [exfalso; nra|].
    destruct (Rlt_dec x 0) as [Hx' | Hx'].
    + destruct (Rlt_dec (s * x) 0) as [_ | Hn]; [|exfalso; nra].
      rewrite Hq by lra.
      destruct (Rle_dec 0 y), (Rle_dec 0 (s * y));
        try reflexivity; exfalso; nra.
    + destruct (Rlt_dec (s * x) 0) as [Hp | _]; [exfalso; nra|].
      destruct (Rlt_dec 0 y), (Rlt_dec 0 (s * y));
        try reflexivity; try (exfalso; nra).
      destruct (Rlt_dec y 0), (Rlt_dec (s * y) 0);
        try reflexivity; exfalso; nra.
Qed.

Lemma sqrt_scale (s a b : R) :
  0 < s -> sqrt ((s * a) ^ 2 + (s * b) ^ 2) = s * sqrt (a ^ 2 + b ^ 2).
Proof.
  intros Hs.
  replace ((s * a) ^ 2 + (s * b) ^ 2) with (s ^ 2 * (a ^ 2 + b ^ 2)) by ring.
  rewrite sqrt_mult_alt by (apply pow2_ge_0).
  rewrite sqrt_pow2 by lra. reflexivity.
Qed.

Lemma pydiv_scale (s a b : R) : 0 < s -> pydiv (s * a) (s * b) = pydiv a b.
Proof.
  intros Hs. unfold pydiv.
  destruct (Req_dec_T b 0) as [Hb | Hb], (Req_dec_T (s * b) 0) as [Hsb | Hsb];
    try reflexivity.
  - exfalso. apply Hsb. rewrite Hb. ring.
  - exfalso. apply Rmult_integral in Hsb. destruct Hsb; [lra | contradiction].
  - f_equal. field. split; lra.
Qed.

Lemma dubins_normalize_scale (s c : R) (o : R * R) (start end_ : config) :
  0 < s ->
  dubins_normalize {| radius := s * c |}
    (scale_about o s start) (scale_about o s end_)
  = dubins_normalize {| radius := c |} start end_.
Proof.
  intros Hs. destruct start as [[sx sy] syaw], end_ as [[ex ey] eyaw].
  destruct o as [ox oy].
  unfold dubins_normalize, scale_about. cbn [fst snd radius].
  set (lex := cos (radians syaw) * (ex - sx) + sin (radians syaw) * (ey - sy)).
  set (ley := - sin (radians syaw) * (ex - sx) + cos (radians syaw) * (ey - sy)).
  replace (cos (radians syaw) * (ox + s * (ex - ox) - (ox + s * (sx - ox)))
           + sin (radians syaw) * (oy + s * (ey - oy) - (oy + s * (sy - oy))))
    with (s * lex) by (unfold lex; ring).
  replace (- sin (radians syaw) * (ox + s * (ex - ox) - (ox + s * (sx - ox)))
           + cos (radians syaw) * (oy + s * (ey - oy) - (oy + s * (sy - oy))))
    with (s * ley) by (unfold ley; ring).
  rewrite sqrt_scale, pydiv_scale, atan2_scale by assumption.
  reflexivity.
Qed.



(** ** The entry point *)

(** C9. [route_dubin] plans from the start port's position divided by 1000
    and its orientation as it is, to the end port's position divided by 1000
    and the reversal of its orientation, (orientation + 180) mod 360: a
    heading in [0, 360) that differs from orientation + 180 by a whole number
    of turns. *)
Theorem route_dubin_plans_to_reversed_end (xs : CrossSection)
  (port1 port2 : Port) :
  route_dubin xs port1 port2
  = (path <- dubins_path xs
       (fst (center port1) / 1000, snd (center port1) / 1000,
        orientation port1)
       (fst (center port2) / 1000, snd (center port2) / 1000,
        pymod (orientation port2 + 180) 360) ;;
     gds_solution xs port1 port2 path)
  /\ 0 <= pymod (orientation port2 + 180) 360 < 360
  /\ exists k : Z,
      pymod (orientation port2 + 180) 360
      = orientation port2 + 180 - 360 * IZR k.
Proof.
  split; [|split].
  - unfold route_dubin.
    destruct (center port1) as [x1 y1], (center port2) as [x2 y2].
    reflexivity.
  - apply pymod_range. lra.
  - exists (Int_part ((orientation port2 + 180) / 360)). reflexivity.
Qed.

(** ** The reflection step *)

Lemma general_planner_unreflected_on_planners (planner : string)
  (alpha beta d : R) :
  In planner planners ->
  general_planner planner alpha beta d
  = general_planner_unreflected planner alpha beta d.
Proof.
  intros Hin. simpl in Hin.
  repeat (destruct Hin as [<- | Hin]; [reflexivity|]).
  contradiction.
Qed.

Lemma select_loop_ext
  (gp1 gp2 : string -> R -> R -> R -> result (option solution))
  (alpha beta d : R) (pls : list string) :
  (forall planner, In planner pls ->
                   gp1 planner alpha beta d = gp2 planner alpha beta d) ->
  forall b, select_loop gp1 pls alpha beta d b
            = select_loop gp2 pls alpha beta d b.
Proof.
  induction pls as [|planner pls IH]; intros Hext b; [reflexivity|].
  simpl. rewrite (Hext planner) by (left; reflexivity).
  destruct (gp2 planner alpha beta d) as [sol | e]; [|reflexivity].
  simpl. destruct (consider b sol) as [b' | e]; [|reflexivity].
  simpl. apply IH. intros pl Hpl. apply Hext. right. assumption.
Qed.

(** C10. [dubins_path] computes what its variant without lines 108-110
    computes: the loop hands [general_planner] the six upper-case codes only,
    for which the reflection replaces nothing. *)
Theorem reflection_step_is_never_taken (xs : CrossSection)
  (start end_ : config) :
  dubins_path xs start end_ = dubins_path_unreflected xs start end_
  /\ forall planner alpha beta d,
      In planner planners ->
      general_planner planner alpha beta d
      = general_planner_unreflected planner alpha beta d.
Proof.
  split; [|intros; apply general_planner_unreflected_on_planners; assumption].
  unfold dubins_path, dubins_path_unreflected, dubins_path_with,
    dubins_plan_with.
  destruct (dubins_normalize xs start end_) as [[[alpha beta] d] | e];
    [|reflexivity].
  cbn [bind].
  rewrite (select_loop_ext general_planner general_planner_unreflected);
    [reflexivity|].
  intros planner Hin. apply general_planner_unreflected_on_planners. assumption.
Qed.

(** * Further properties of route_dubin.py *)

(** ** [mod_to_pi] *)

Lemma floor_unique (x : R) (k : Z) : IZR k <= x < IZR k + 1 -> floor x = IZR k.
Proof.
  intros [Hlo Hhi]. unfold floor, Int_part.
  assert (Hup : (k + 1)%Z = up x).
  { apply up_tech; [assumption|]. rewrite plus_IZR. exact Hhi. }
  rewrite <- Hup. f_equal. lia.
Qed.

Lemma floor_shift (x : R) (k : Z) : floor (x + IZR k) = floor x + IZR k.
Proof.
  unfold floor at 2. rewrite <- plus_IZR. apply floor_unique.
  rewrite plus_IZR. fold (floor x).
  destruct (floor_bounds x). split; lra.
Qed.

Lemma mod_to_pi_shift (a : R) (k : Z) :
  mod_to_pi (a + 2 * PI * IZR k) = mod_to_pi a.
Proof.
  unfold mod_to_pi. pose proof PI_RGT_0.
  replace ((a + 2 * PI * IZR k) / 2 / PI) with (a / 2 / PI + IZR k)
    by (field; lra).
  rewrite floor_shift. ring.
Qed.

Lemma mod_to_pi_id (a : R) : 0 <= a < 2 * PI -> mod_to_pi a = a.
Proof.
  intros [Hlo Hhi]. unfold mod_to_pi. pose proof PI_RGT_0 as Hpi.
  rewrite (floor_unique _ 0); [ring|].
  split.
  - apply Rmult_le_pos; [lra|]. left. apply Rinv_0_lt_compat. assumption.
  - apply Rmult_lt_reg_r with (2 * PI); [lra|].
    replace (a / 2 / PI * (2 * PI)) with a by (field; lra). lra.
Qed.



(** ** [linear] *)

Lemma linear_loop (fx fy : Z -> R) (l : list Z) (x0 y0 : list R) :
  fold_left
    (fun (xy : list R * list R) (step : Z) =>
       let '(x, y) := xy in (x ++ [fx step], y ++ [fy step]))
    l (x0, y0)
  = (x0 ++ map fx l, y0 ++ map fy l).
Proof.
  revert x0 y0. induction l as [|s l IH]; intros x0 y0; simpl.
  - rewrite !app_nil_r. reflexivity.
  - rewrite IH, <- !app_assoc. reflexivity.
Qed.

Lemma pyrange_length (lo hi : Z) :
  List.length (pyrange lo hi) = Z.to_nat (hi - lo).
Proof. unfold pyrange. rewrite length_map, length_seq. reflexivity. Qed.

Lemma pyrange_nth (lo hi : Z) (i : nat) (f : Z -> R) :
  (i < Z.to_nat (hi - lo))%nat ->
  nth i (map f (pyrange lo hi)) 0 = f (lo + Z.of_nat i)%Z.
Proof.
  intros Hi. unfold pyrange. rewrite map_map.
  rewrite (nth_indep _ 0 (f (lo + Z.of_nat 0)%Z))
    by (rewrite length_map, length_seq; assumption).
  rewrite (map_nth (fun i => f (lo + Z.of_nat i)%Z)).
  rewrite seq_nth by assumption. reflexivity.
Qed.

Lemma linear_ok (START END : config) (STEPS : Z) :
  STEPS <> 0%Z ->
  linear START END STEPS
  = Ok (map (fun step => IZR step * ((fst (fst END) - fst (fst START))
                                      / IZR STEPS) + fst (fst START))
            (pyrange 0 (STEPS + 1)),
        map (fun step => IZR step * ((snd (fst END) - snd (fst START))
                                      / IZR STEPS) + snd (fst START))
            (pyrange 0 (STEPS + 1))).
Proof.
  intros Hs. destruct START as [[x0 y0] a0], END as [[x1 y1] a1].
  assert (Hz : IZR STEPS <> 0) by (apply not_0_IZR; assumption).
  unfold linear. rewrite !pydiv_nonzero by assumption. cbn [bind fst snd].
  rewrite linear_loop. reflexivity.
Qed.

(** X5. For a positive number of steps [linear] returns STEPS + 1 abscissas
    and as many ordinates; the i-th point is the start moved by i / STEPS of
    the way to the end, so the first point is the start and the last is the
    end. *)
Theorem linear_points_on_segment (START END : config) (STEPS : Z) :
  (0 < STEPS)%Z ->
  exists x y,
    linear START END STEPS = Ok (x, y)
    /\ List.length x = Z.to_nat (STEPS + 1)
    /\ List.length y = Z.to_nat (STEPS + 1)
    /\ (forall i, (i <= Z.to_nat STEPS)%nat ->
          nth i x 0 = fst (fst START)
                      + INR i / IZR STEPS * (fst (fst END) - fst (fst START))
          /\ nth i y 0 = snd (fst START)
                         + INR i / IZR STEPS
                           * (snd (fst END) - snd (fst START)))
    /\ nth 0 x 0 = fst (fst START) /\ nth 0 y 0 = snd (fst START)
    /\ nth (Z.to_nat STEPS) x 0 = fst (fst END)
    /\ nth (Z.to_nat STEPS) y 0 = snd (fst END).
Proof.
  intros Hpos. rewrite linear_ok by lia.
  assert (Hz : IZR STEPS <> 0) by (apply not_0_IZR; lia).
  assert (Hnth : forall i, (i <= Z.to_nat STEPS)%nat ->
            forall a b,
              nth i (map (fun step => IZR step * ((b - a) / IZR STEPS) + a)
                       (pyrange 0 (STEPS + 1))) 0
              = a + INR i / IZR STEPS * (b - a)).
  { intros i Hi a b. rewrite pyrange_nth by lia.
    rewrite Z.add_0_l, <- INR_IZR_INZ. field. assumption. }
  eexists. eexists. split; [reflexivity|].
  rewrite !length_map, pyrange_length, Z.sub_0_r.
  split; [reflexivity|]. split; [reflexivity|].
  split; [intros i Hi; split; apply Hnth; assumption|].
  rewrite !(Hnth O) by lia. rewrite !(Hnth (Z.to_nat STEPS)) by lia.
  assert (Hlast : INR (Z.to_nat STEPS) = IZR STEPS).
  { rewrite INR_IZR_INZ, Z2Nat.id by lia. reflexivity. }
  rewrite Hlast. simpl INR.
  repeat split; field; assumption.
Qed.

Lemma linear_points_on_segment_witness :
  exists x y,
    linear (0, 0, 0) (4, 2, 90) 2 = Ok (x, y)
    /\ nth 1 x 0 = 2 /\ nth 1 y 0 = 1.
Proof.
  assert (Hpos : (0 < 2)%Z) by lia.
  destruct (linear_points_on_segment (0, 0, 0) (4, 2, 90) 2 Hpos)
    as (x & y & Hl & _ & _ & Hnth & _).
  exists x, y. split; [exact Hl|].
  destruct (Hnth 1%nat) as [Hx Hy]; [simpl; lia|].
  rewrite Hx, Hy. simpl. split; field.
Defined.

(** X6. With STEPS = 0 [linear] divides by zero and raises
    [ZeroDivisionError]; with a negative STEPS the range is empty and it
    returns two empty lists. *)
Theorem linear_without_steps (START END : config) :
  linear START END 0 = Raise ZeroDivisionError
  /\ forall STEPS, (STEPS < 0)%Z -> linear START END STEPS = Ok ([], []).
Proof.
  split.
  - destruct START as [[x0 y0] a0], END as [[x1 y1] a1].
    unfold linear. rewrite pydiv_zero. reflexivity.
  - intros STEPS Hneg. rewrite linear_ok by lia.
    unfold pyrange. rewrite Z.sub_0_r.
    replace (Z.to_nat (STEPS + 1)) with O by lia. reflexivity.
Qed.

(** ** Whole turns *)

Lemma cos_sin_whole_turns (x : R) (k : Z) :
  cos (x + 2 * PI * IZR k) = cos x /\ sin (x + 2 * PI * IZR k) = sin x.
Proof.
  destruct (Z_le_gt_dec 0 k) as [Hk | Hk].
  - replace (x + 2 * PI * IZR k) with (x + 2 * INR (Z.to_nat k) * PI).
    + split; [apply cos_period | apply sin_period].
    + rewrite INR_IZR_INZ, Z2Nat.id by assumption. ring.
  - replace x with (x + 2 * PI * IZR k + 2 * INR (Z.to_nat (- k)) * PI) at 2 4.
    + split; symmetry; [apply cos_period | apply sin_period].
    + rewrite INR_IZR_INZ, Z2Nat.id, opp_IZR by lia. ring.
Qed.

Lemma radians_whole_turns (deg : R) (k : Z) :
  radians (deg + 360 * IZR k) = radians deg + 2 * PI * IZR k.
Proof. unfold radians. field. Qed.

(** ** [arrow_orientation] *)

(** X7. [arrow_orientation] returns a vector of length 1, the same for two
    angles that differ by a whole number of turns of 360 degrees. *)
Theorem arrow_orientation_unit_vector (ANGLE : R) (k : Z) :
  fst (arrow_orientation ANGLE) ^ 2 + snd (arrow_orientation ANGLE) ^ 2 = 1
  /\ arrow_orientation (ANGLE + 360 * IZR k) = arrow_orientation ANGLE.
Proof.
  unfold arrow_orientation. cbn [fst snd]. split.
  - pose proof (sin2_cos2 (radians ANGLE)) as H. unfold Rsqr in H.
    simpl. lra.
  - rewrite radians_whole_turns.
    destruct (cos_sin_whole_turns (radians ANGLE) k) as [-> ->]. reflexivity.
Qed.

(** ** [dubins_path_length] *)

Lemma local_frame_norm (h dx dy : R) :
  (cos h * dx + sin h * dy) ^ 2 + (- sin h * dx + cos h * dy) ^ 2
  = dx ^ 2 + dy ^ 2.
Proof.
  pose proof (sin2_cos2 h) as H. unfold Rsqr in H.
  replace ((cos h * dx + sin h * dy) ^ 2 + (- sin h * dx + cos h * dy) ^ 2)
    with ((sin h * sin h + cos h * cos h) * (dx ^ 2 + dy ^ 2)) by ring.
  rewrite H. ring.
Qed.

Lemma dubins_path_length_euclid (sx sy syaw ex ey eyaw : R)
  (xs : CrossSection) :
  dubins_path_length (sx, sy, syaw) (ex, ey, eyaw) xs
  = sqrt ((ex - sx) ^ 2 + (ey - sy) ^ 2).
Proof.
  unfold dubins_path_length. rewrite local_frame_norm. reflexivity.
Qed.

(** X8. In spite of its name [dubins_path_length] returns the straight-line
    distance between the two positions: the headings and the cross-section
    do not enter it (a radius of 0 raises nothing), it is the same in both
    directions and never negative. *)
Theorem dubins_path_length_is_distance (sx sy syaw ex ey eyaw : R)
  (xs : CrossSection) :
  dubins_path_length (sx, sy, syaw) (ex, ey, eyaw) xs
  = sqrt ((ex - sx) ^ 2 + (ey - sy) ^ 2)
  /\ (forall syaw' eyaw' xs',
        dubins_path_length (ex, ey, eyaw') (sx, sy, syaw') xs'
        = dubins_path_length (sx, sy, syaw) (ex, ey, eyaw) xs)
  /\ 0 <= dubins_path_length (sx, sy, syaw) (ex, ey, eyaw) xs.
Proof.
  split; [apply dubins_path_length_euclid|]. split.
  - intros syaw' eyaw' xs'. rewrite !dubins_path_length_euclid.
    f_equal. ring.
  - rewrite dubins_path_length_euclid. apply sqrt_pos.
Qed.

(** X9. The normalized distance d of [dubins_path] is [dubins_path_length]
    divided by the radius: for a radius other than 0,
    d * radius = dubins_path_length. *)
Theorem normalized_distance_times_radius (xs : CrossSection)
  (start end_ : config) :
  radius xs <> 0 ->
  exists alpha beta d,
    dubins_normalize xs start end_ = Ok (alpha, beta, d)
    /\ d * radius xs = dubins_path_length start end_ xs.
Proof.
  intros Hc. destruct start as [[sx sy] syaw], end_ as [[ex ey] eyaw].
  unfold dubins_normalize, dubins_path_length.
  rewrite pydiv_nonzero by assumption. cbn [bind].
  do 3 eexists. split; [reflexivity|]. field. assumption.
Qed.

Lemma normalized_distance_times_radius_witness :
  exists alpha beta d,
    dubins_normalize {| radius := 2 |} (0, 0, 0) (3, 4, 90)
    = Ok (alpha, beta, d)
    /\ d * 2 = dubins_path_length (0, 0, 0) (3, 4, 90) {| radius := 2 |}.
Proof.
  assert (Hc : radius {| radius := 2 |} <> 0) by (simpl; lra).
  exact (normalized_distance_times_radius
           {| radius := 2 |} (0, 0, 0) (3, 4, 90) Hc).
Defined.

(** ** [general_planner] on codes of any case *)

Lemma upper_family_code_letters (planner : string) (f : family) :
  upper planner = family_code f ->
  exists c0 c1 c2,
    planner = String c0 (String c1 (String c2 EmptyString)).
Proof.
  intros H.
  destruct planner as [|c0 [|c1 [|c2 [|c3 rest]]]];
    try (destruct f; discriminate).
  eauto.
Qed.

Lemma family_measures_range (f : family) (alpha beta d t p q : R) :
  spec_evaluate f alpha beta d = Some (t, p, q) ->
  0 <= t < 2 * PI /\ 0 <= p /\ 0 <= q < 2 * PI.
Proof.
  unfold spec_evaluate, spec_measures.
  destruct f; decide_R; try discriminate; intros H;
    injection H as <- <- <-; rewrite ?canon_mod_to_pi;
    repeat split;
    first [ apply sqrt_pos
          | apply (proj1 (mod_to_pi_range _))
          | apply (proj2 (mod_to_pi_range _)) ].
Qed.

Lemma general_planner_any_case (planner : string) (f : family)
  (c0 c1 c2 : ascii) (alpha beta d : R) :
  planner = String c0 (String c1 (String c2 EmptyString)) ->
  upper planner = family_code f ->
  general_planner planner alpha beta d
  = Ok (option_map
          (fun m : R * R * R =>
             let '(t, p, q) := m in
             ([reflected c0 t; p; reflected c2 q], [c0; c1; c2],
              reflected c0 t + p + reflected c2 q))
          (spec_evaluate f alpha beta d)).
Proof.
  intros Hpl Hup.
  destruct (spec_evaluate f alpha beta d) as [[[t p] q]|] eqn:Hev.
  - destruct (family_measures_range _ _ _ _ _ _ _ Hev) as (Ht & Hp & Hq).
    revert Hev.
    unfold general_planner, general_planner_with. rewrite Hup. subst planner.
    pose proof PI_RGT_0 as Hpi.
    destruct f;
      unfold finish_with, reflect, reflect_at, spec_evaluate, spec_measures,
        spec_test_value, reflected in *;
      simpl; rewrite ?Rmult_1_r, ?canon_mod_to_pi;
      try replace (- sin alpha + sin beta) with (sin beta - sin alpha) by ring;
      decide_R; try discriminate; try lra;
      intros Hev; injection Hev as <- <- <-;
      rewrite ?canon_mod_to_pi in *;
      destruct (islower c0), (islower c2); simpl; rewrite pysum3;
      rewrite !Rabs_pos_eq by lra; reflexivity.
  - revert Hev.
    unfold general_planner, general_planner_with. rewrite Hup. subst planner.
    destruct f; unfold spec_evaluate, spec_test_value;
      simpl; rewrite ?Rmult_1_r;
      try replace (- sin alpha + sin beta) with (sin beta - sin alpha) by ring;
      decide_R; try discriminate; try lra; reflexivity.
Qed.

Lemma family_code_dec (s : string) :
  {f | s = family_code f} + {forall f, s <> family_code f}.
Proof.
  destruct (string_dec s "LSL") as [->|H1]; [left; exists LSL; reflexivity|].
  destruct (string_dec s "RSR") as [->|H2]; [left; exists RSR; reflexivity|].
  destruct (string_dec s "LSR") as [->|H3]; [left; exists LSR; reflexivity|].
  destruct (string_dec s "RSL") as [->|H4]; [left; exists RSL; reflexivity|].
  destruct (string_dec s "RLR") as [->|H5]; [left; exists RLR; reflexivity|].
  destruct (string_dec s "LRL") as [->|H6]; [left; exists LRL; reflexivity|].
  right. intros f. destruct f; assumption.
Qed.

(** X10. [general_planner] answers (a path or "infeasible") exactly for the
    codes that are one of the six families once put in upper case; for every
    other string it goes on past the "bad planner" message and raises
    [UnboundLocalError] at [path = [t, p, q]]. *)
Theorem bad_planner_code_raises (planner : string) (alpha beta d : R) :
  ((exists f, upper planner = family_code f)
   /\ exists sol, general_planner planner alpha beta d = Ok sol)
  \/ ((forall f, upper planner <> family_code f)
      /\ general_planner planner alpha beta d = Raise UnboundLocalError).
Proof.
  destruct (family_code_dec (upper planner)) as [[f Hf] | Hnone].
  - left. split; [eauto|].
    destruct (upper_family_code_letters planner f Hf) as (c0 & c1 & c2 & Hpl).
    rewrite (general_planner_any_case planner f c0 c1 c2 _ _ _ Hpl Hf). eauto.
  - right. split; [assumption|].
    unfold general_planner, general_planner_with.
    assert (Hneq : forall f, (upper planner =? family_code f)%string = false)
      by (intros f; apply String.eqb_neq, Hnone).
    pose proof (Hneq LSL) as E1. pose proof (Hneq RSR) as E2.
    pose proof (Hneq LSR) as E3. pose proof (Hneq RSL) as E4.
    pose proof (Hneq RLR) as E5. pose proof (Hneq LRL) as E6.
    cbn [family_code] in E1, E2, E3, E4, E5, E6.
    rewrite E1, E2, E3, E4, E5, E6.
    reflexivity.
Qed.

(** X12. [general_planner] takes a family code in any mix of cases.  The
    code decides the family by its upper-case form, so feasibility and the
    straight or middle measure are those of the upper-case code; each of the
    first and third measures m whose letter is lower-case comes back as
    2 pi - m, and the mode is the letters as they were given. *)
Theorem lower_case_letters_reflect (planner : string) (f : family)
  (alpha beta d : R) :
  upper planner = family_code f ->
  exists c0 c1 c2,
    planner = String c0 (String c1 (String c2 EmptyString))
    /\ ((general_planner (family_code f) alpha beta d = Ok None
         /\ general_planner planner alpha beta d = Ok None)
        \/ exists t p q,
            general_planner (family_code f) alpha beta d
            = Ok (Some ([t; p; q], list_ascii_of_string (family_code f),
                        t + p + q))
            /\ general_planner planner alpha beta d
               = Ok (Some ([reflected c0 t; p; reflected c2 q], [c0; c1; c2],
                           reflected c0 t + p + reflected c2 q))).
Proof.
  intros Hup.
  destruct (upper_family_code_letters planner f Hup) as (c0 & c1 & c2 & Hpl).
  exists c0, c1, c2. split; [assumption|].
  rewrite (general_planner_any_case planner f c0 c1 c2 _ _ _ Hpl Hup).
  assert (Hf : exists u0 u1 u2,
             family_code f = String u0 (String u1 (String u2 EmptyString))
             /\ islower u0 = false /\ islower u2 = false).
  { destruct f; do 3 eexists; repeat split. }
  destruct Hf as (u0 & u1 & u2 & Hcode & Hu0 & Hu2).
  rewrite (general_planner_any_case (family_code f) f u0 u1 u2 _ _ _ Hcode)
    by (destruct f; reflexivity).
  destruct (spec_evaluate f alpha beta d) as [[[t p] q]|]; simpl.
  - right. exists t, p, q. unfold reflected at 1 2 3 4. rewrite Hu0, Hu2.
    rewrite Hcode. split; reflexivity.
  - left. split; reflexivity.
Qed.

Lemma lower_case_letters_reflect_witness :
  exists c0 c1 c2,
    "lSr"%string = String c0 (String c1 (String c2 EmptyString))
    /\ ((general_planner "LSR" 0 0 1 = Ok None
         /\ general_planner "lSr" 0 0 1 = Ok None)
        \/ exists t p q,
            general_planner "LSR" 0 0 1
            = Ok (Some ([t; p; q], ["L"; "S"; "R"]%char, t + p + q))
            /\ general_planner "lSr" 0 0 1
               = Ok (Some ([reflected c0 t; p; reflected c2 q], [c0; c1; c2],
                           reflected c0 t + p + reflected c2 q))).
Proof.
  exact (lower_case_letters_reflect "lSr" LSR 0 0 1 eq_refl).
Defined.

(** ** The returned path and its rendering *)

Lemma planners_family (i : nat) (planner : string) :
  nth_error planners i = Some planner -> exists f, planner = family_code f.
Proof.
  intros H.
  destruct i as [|i]; [injection H as <-; exists LSL; reflexivity|].
  destruct i as [|i]; [injection H as <-; exists RSR; reflexivity|].
  destruct i as [|i]; [injection H as <-; exists LSR; reflexivity|].
  destruct i as [|i]; [injection H as <-; exists RSL; reflexivity|].
  destruct i as [|i]; [injection H as <-; exists RLR; reflexivity|].
  destruct i as [|i]; [injection H as <-; exists LRL; reflexivity|].
  destruct i; discriminate.
Qed.

Lemma family_letters (f : family) :
  exists l0 l1 l2,
    list_ascii_of_string (family_code f) = [l0; l1; l2]
    /\ (l0 = "L" \/ l0 = "R")%char
    /\ (l2 = "L" \/ l2 = "R")%char
    /\ ((l1 = "S"%char /\ (f = LSL \/ f = RSR \/ f = LSR \/ f = RSL))
        \/ ((l1 = "L" \/ l1 = "R")%char /\ (f = RLR \/ f = LRL))).
Proof. destruct f; do 3 eexists; simpl; intuition. Qed.

Lemma middle_arc_range (f : family) (alpha beta d t p q : R) :
  f = RLR \/ f = LRL ->
  spec_evaluate f alpha beta d = Some (t, p, q) -> p < 2 * PI.
Proof.
  intros [-> | ->]; unfold spec_evaluate, spec_measures; decide_R;
    try discriminate; intros H; injection H as <- <- <-;
    rewrite canon_mod_to_pi; apply mod_to_pi_range.
Qed.

(** What a call with a radius other than 0 returns, in terms of the family
    the loop kept. *)
Lemma dubins_path_winner (xs : CrossSection) (start end_ : config) :
  radius xs <> 0 ->
  exists alpha beta d f t p q l0 l1 l2,
    dubins_normalize xs start end_ = Ok (alpha, beta, d)
    /\ spec_evaluate f alpha beta d = Some (t, p, q)
    /\ list_ascii_of_string (family_code f) = [l0; l1; l2]
    /\ select_loop general_planner planners alpha beta d best_init
       = Ok (taken t p q [l0; l1; l2] (t + p + q))
    /\ dubins_path xs start end_
       = Ok [(l0, t * radius xs, radius xs);
             (l1, p * radius xs, radius xs);
             (l2, q * radius xs, radius xs)].
Proof.
  intros Hc.
  destruct (dubins_normalize_nonzero xs start end_ Hc) as (alpha & beta & d & Hn).
  destruct (select_loop_general_planner alpha beta d)
    as (i & planner & t & p & q & Hi & Hgp & _ & _ & _ & Hloop & _).
  destruct (planners_family i planner Hi) as [f ->].
  destruct (family_letters f) as (l0 & l1 & l2 & Hl & _).
  rewrite Hl in *.
  exists alpha, beta, d, f, t, p, q, l0, l1, l2.
  split; [assumption|]. split.
  { rewrite general_planner_table in Hgp.
    destruct (spec_evaluate f alpha beta d) as [[[t' p'] q']|];
      [|discriminate].
    simpl in Hgp. injection Hgp as -> -> ->. reflexivity. }
  split; [assumption|]. split; [assumption|].
  unfold dubins_path, dubins_path_with, dubins_plan_with.
  rewrite Hn. cbn [bind]. rewrite Hloop. reflexivity.
Qed.

(** X15. The lengths of the returned segments take the sign of the radius:
    none is negative for a positive radius, none is positive for a negative
    one (which the planner accepts); and every arc is shorter than the full
    circle of that radius. *)
Theorem segment_lengths_follow_radius (xs : CrossSection)
  (start end_ : config) (segs : list segment) :
  dubins_path xs start end_ = Ok segs ->
  (0 < radius xs -> Forall (fun seg : segment => 0 <= snd (fst seg)) segs)
  /\ (radius xs < 0 -> Forall (fun seg : segment => snd (fst seg) <= 0) segs)
  /\ Forall (fun seg : segment =>
               fst (fst seg) <> "S"%char ->
               Rabs (snd (fst seg)) < 2 * PI * Rabs (radius xs)) segs.
Proof.
  intros Hsegs.
  destruct (Req_dec_T (radius xs) 0) as [Hc | Hc].
  { unfold dubins_path, dubins_path_with, dubins_plan_with in Hsegs.
    rewrite dubins_normalize_zero in Hsegs by assumption. discriminate. }
  destruct (dubins_path_winner xs start end_ Hc)
    as (alpha & beta & d & f & t & p & q & l0 & l1 & l2
        & _ & Hev & Hl & _ & Hp).
  rewrite Hp in Hsegs. injection Hsegs as <-.
  destruct (family_measures_range _ _ _ _ _ _ _ Hev) as (Ht & Hp0 & Hq).
  assert (Habs : 0 < Rabs (radius xs)) by (apply Rabs_pos_lt; assumption).
  split; [|split].
  - intros Hpos.
    repeat (apply Forall_cons; [cbn [fst snd]; nra|]). apply Forall_nil.
  - intros Hneg.
    repeat (apply Forall_cons; [cbn [fst snd]; nra|]). apply Forall_nil.
  - apply Forall_cons; [|apply Forall_cons; [|apply Forall_cons;
                                                [|apply Forall_nil]]];
      cbn [fst snd]; intros Hs; rewrite Rabs_mult.
    + rewrite (Rabs_pos_eq t) by lra. nra.
    + destruct (family_letters f) as (l0' & l1' & l2' & Hl' & _ & _ & Hmid).
      rewrite Hl in Hl'. injection Hl' as <- <- <-.
      destruct Hmid as [[Hl1 _] | [_ Hf]]; [contradiction|].
      pose proof (middle_arc_range _ _ _ _ _ _ _ Hf Hev).
      rewrite (Rabs_pos_eq p) by lra. nra.
    + rewrite (Rabs_pos_eq q) by lra. nra.
Qed.

Lemma segment_lengths_follow_radius_witness :
  exists segs,
    dubins_path {| radius := -1 |} (0, 0, 0) (1, 0, 0) = Ok segs
    /\ Forall (fun seg : segment => snd (fst seg) <= 0) segs.
Proof.
  destruct (dubins_path_cases {| radius := -1 |} (0, 0, 0) (1, 0, 0))
    as [[Hc _] | (_ & alpha & beta & d & i & planner & t & p & q
                  & l0 & l1 & l2 & _ & _ & _ & _ & _ & _ & Hp)].
  - exfalso. simpl in Hc. lra.
  - eexists. split; [exact Hp|].
    apply (proj1 (proj2 (segment_lengths_follow_radius _ _ _ _ Hp))).
    simpl. lra.
Defined.

Lemma gds_step_letter (l : ascii) (len r : R) (s : shape) :
  gds_step (l, len, r) = Ok s ->
  ((l = "L" \/ l = "R")%char /\ PI * r <> 0) \/ l = "S"%char.
Proof.
  unfold gds_step.
  destruct (Ascii.eqb_spec l "L") as [-> | HL].
  - intros H. left. split; [auto|]. intros Hz. rewrite Hz, pydiv_zero in H.
    discriminate.
  - destruct (Ascii.eqb_spec l "R") as [-> | HR].
    + intros H. left. split; [auto|]. intros Hz. rewrite Hz, pydiv_zero in H.
      discriminate.
    + destruct (Ascii.eqb_spec l "S") as [-> | HS]; [auto | discriminate].
Qed.

(** X16. [gds_solution] adds one piece per segment, in order, and only for
    the letters L, R and S, with arcs of a radius other than 0: the first
    segment it cannot render stops it, with [ValueError] for another letter
    and with [ZeroDivisionError] for an arc of radius 0. *)
Theorem gds_solution_piece_per_segment (xs : CrossSection)
  (port1 port2 : Port) :
  (forall solution shapes,
      gds_solution xs port1 port2 solution = Ok shapes ->
      List.length shapes = List.length solution
      /\ Forall2 (fun seg s => gds_step seg = Ok s) solution shapes
      /\ Forall (fun seg : segment =>
                   let l := fst (fst seg) in
                   (l = "L" \/ l = "R" \/ l = "S")%char) solution)
  /\ (forall pre l len r post,
         Forall (fun seg => exists s, gds_step seg = Ok s) pre ->
         (l <> "L" /\ l <> "R" /\ l <> "S")%char ->
         gds_solution xs port1 port2 (pre ++ (l, len, r) :: post)
         = Raise ValueError)
  /\ (forall pre l len post,
         Forall (fun seg => exists s, gds_step seg = Ok s) pre ->
         (l = "L" \/ l = "R")%char ->
         gds_solution xs port1 port2 (pre ++ (l, len, 0) :: post)
         = Raise ZeroDivisionError).
Proof.
  split; [|split].
  - intros sol. induction sol as [|[[l len] r] rest IH]; intros shapes H.
    + simpl in H. injection H as <-. repeat constructor.
    + cbn [gds_solution] in H.
      destruct (gds_step (l, len, r)) as [s|e] eqn:Hs; [|discriminate].
      cbn [bind] in H.
      destruct (gds_solution xs port1 port2 rest) as [ss|e] eqn:Hr;
        [|discriminate].
      cbn [bind] in H. injection H as <-.
      destruct (IH ss eq_refl) as (Hlen & Hall & Hlet).
      split; [simpl; congruence|]. split; [constructor; assumption|].
      constructor; [|assumption].
      cbn [fst]. destruct (gds_step_letter _ _ _ _ Hs) as [[[-> | ->] _] | ->];
        auto.
  - intros pre l len r post Hpre (HL & HR & HS).
    induction Hpre as [|seg pre [s Hs] _ IH]; cbn [app gds_solution].
    + unfold gds_step.
      destruct (Ascii.eqb_spec l "L"); [contradiction|].
      destruct (Ascii.eqb_spec l "R"); [contradiction|].
      destruct (Ascii.eqb_spec l "S"); [contradiction|]. reflexivity.
    + rewrite Hs. cbn [bind]. rewrite IH. reflexivity.
  - intros pre l len post Hpre Hl.
    induction Hpre as [|seg pre [s Hs] _ IH]; cbn [app gds_solution].
    + unfold gds_step. rewrite Rmult_0_r, pydiv_zero.
      destruct Hl as [-> | ->]; reflexivity.
    + rewrite Hs. cbn [bind]. rewrite IH. reflexivity.
Qed.

(** * The planner on binary64 floats *)

(** ** A C library that gives more answers *)

Section Extension.

Variables lm tb : Float64.libm.
Hypothesis Hext : Float64.extends lm tb.

Ltac call_step H :=
  match type of H with
  | context [Float64.m_sin tb ?x] =>
      let E := fresh "E" in
      destruct (Float64.m_sin tb x) as [?|?] eqn:E;
      [rewrite (proj1 Hext _ _ E) | discriminate H]
  | context [Float64.m_cos tb ?x] =>
      let E := fresh "E" in
      destruct (Float64.m_cos tb x) as [?|?] eqn:E;
      [rewrite (proj1 (proj2 Hext) _ _ E) | discriminate H]
  | context [Float64.m_atan2 tb ?x ?y] =>
      let E := fresh "E" in
      destruct (Float64.m_atan2 tb x y) as [?|?] eqn:E;
      [rewrite (proj1 (proj2 (proj2 Hext)) _ _ _ E) | discriminate H]
  | context [Float64.m_acos tb ?x] =>
      let E := fresh "E" in
      destruct (Float64.m_acos tb x) as [?|?] eqn:E;
      [rewrite (proj1 (proj2 (proj2 (proj2 Hext))) _ _ E) | discriminate H]
  | context [Float64.m_pow tb ?x ?y] =>
      let E := fresh "E" in
      destruct (Float64.m_pow tb x y) as [?|?] eqn:E;
      [rewrite (proj2 (proj2 (proj2 (proj2 Hext))) _ _ _ E) | discriminate H]
  end; cbn [bind] in H |- *.

Ltac other_step H :=
  match type of H with
  | context [bind ?m _] =>
      lazymatch m with
      | Ok _ => fail
      | _ => destruct m as [?|?] eqn:?; [|discriminate H]
      end; cbn [bind] in H |- *
  | context [if ?c then _ else _] => destruct c
  end.

(** A run that succeeds with the answers of [tb] is the same run with the
    answers of [lm]. *)
Lemma general_planner_extends (planner : string) (alpha beta d : float)
  (sol : option Float64.solution) :
  Float64.general_planner tb planner alpha beta d = Ok sol ->
  Float64.general_planner lm planner alpha beta d = Ok sol.
Proof.
  unfold Float64.general_planner. intros H.
  repeat (first [call_step H | other_step H]);
    try assumption; try discriminate.
Qed.

Lemma dubins_normalize_extends (c : float) (start end_ : float * float * float)
  (n : float * float * float) :
  Float64.dubins_normalize tb c start end_ = Ok n ->
  Float64.dubins_normalize lm c start end_ = Ok n.
Proof.
  destruct start as [[sx sy] syaw], end_ as [[ex ey] eyaw].
  unfold Float64.dubins_normalize. intros H.
  repeat (first [call_step H | other_step H]);
    try assumption; try discriminate.
Qed.

Lemma select_loop_extends (pls : list string) (alpha beta d : float) :
  forall b b',
    Float64.select_loop tb pls alpha beta d b = Ok b' ->
    Float64.select_loop lm pls alpha beta d b = Ok b'.
Proof.
  induction pls as [|planner pls IH]; intros b b' H; [exact H|].
  cbn [Float64.select_loop] in H |- *.
  destruct (Float64.general_planner tb planner alpha beta d) as [sol|e] eqn:E;
    [|discriminate H].
  rewrite (general_planner_extends _ _ _ _ _ E). cbn [bind] in H |- *.
  destruct (Float64.consider b sol) as [b1|e]; [|discriminate H].
  cbn [bind] in H |- *. apply IH. exact H.
Qed.

Lemma dubins_plan_extends (c : float) (start end_ : float * float * float)
  (b : Float64.best) :
  Float64.dubins_plan tb c start end_ = Ok b ->
  Float64.dubins_plan lm c start end_ = Ok b.
Proof.
  unfold Float64.dubins_plan. intros H.
  destruct (Float64.dubins_normalize tb c start end_) as [[[alpha beta] d]|e]
    eqn:E; [|discriminate H].
  rewrite (dubins_normalize_extends _ _ _ _ E). cbn [bind] in H |- *.
  apply select_loop_extends. exact H.
Qed.

End Extension.

(** ** Uniform scaling in the code's own arithmetic *)


(** The two runs are those of every C library that gives the answers of the
    tables, whatever it answers elsewhere. *)
Lemma scaling_changes_the_kept_family_on_any_libm (lm : Float64.libm) :
  Float64.extends lm Float64.glibc_at_two_runs ->
  (exists t p q cost,
      Float64.dubins_plan lm 1%float (0, 0, 0)%float (1, 1, 90)%float
      = Ok {| Float64.bt := Some t; Float64.bp := Some p;
              Float64.bq := Some q;
              Float64.bmode := Some ["R"; "S"; "L"]%char;
              Float64.bcost := cost |})
  /\ (exists t p q cost,
         Float64.dubins_plan lm 3%float (0, 0, 0)%float (3, 3, 90)%float
         = Ok {| Float64.bt := Some t; Float64.bp := Some p;
                 Float64.bq := Some q;
                 Float64.bmode := Some ["L"; "S"; "L"]%char;
                 Float64.bcost := cost |}).
Proof.
  intros Hext. split; do 4 eexists;
    apply (dubins_plan_extends lm Float64.glibc_at_two_runs Hext);
    vm_compute; reflexivity.
Qed.

(** ** [pi_to_pi] on floats *)

(** X21. In the code's arithmetic [pi_to_pi] never returns for an angle so
    large in magnitude that subtracting 2.0 * pi from it, or adding 2.0 * pi
    to it, gives the same float again, as at 1e17: the condition of the loop
    holds at every iteration, whatever their number. *)
Theorem pi_to_pi_never_exits_on_absorbed_turn (a : float) :
  ((Float64.m_pi <=? a)%float = true
   /\ (a - 2 * Float64.m_pi)%float = a)
  \/ ((Float64.m_pi <=? a)%float = false
      /\ (a <=? - Float64.m_pi)%float = true
      /\ (a + 2 * Float64.m_pi)%float = a) ->
  forall fuel, Float64.pi_to_pi fuel a = None.
Proof.
  intros [[Hge Hsame] | (Hlt & Hle & Hsame)] fuel.
  - assert (Hdown : forall n, Float64.pi_to_pi_down n a = None).
    { induction n as [|n IH]; [reflexivity|].
      cbn [Float64.pi_to_pi_down]. rewrite Hge, Hsame. exact IH. }
    unfold Float64.pi_to_pi. rewrite Hdown. reflexivity.
  - assert (Hup : forall n, Float64.pi_to_pi_up n a = None).
    { induction n as [|n IH]; [reflexivity|].
      cbn [Float64.pi_to_pi_up]. rewrite Hle, Hsame. exact IH. }
    unfold Float64.pi_to_pi.
    destruct fuel as [|fuel]; [reflexivity|].
    cbn [Float64.pi_to_pi_down]. rewrite Hlt. apply Hup.
Qed.

Lemma pi_to_pi_never_exits_on_absorbed_turn_witness :
  Float64.pi_to_pi 1000 0x1.6345785d8ap+56 = None
  /\ Float64.pi_to_pi 1000 (-0x1.6345785d8ap+56) = None.
Proof.
  split; apply pi_to_pi_never_exits_on_absorbed_turn.
  - left. split; reflexivity.
  - right. repeat split; reflexivity.
Defined.
